(** * georgia_jobs_map: geocode Georgia employer addresses

    A shallow embedding of [problemsets/pset3/georgia_jobs_map.py].

    The script is a linear pipeline: load the jobs table, keep the Georgia
    rows, build two address strings per row, drop duplicate address pairs,
    load the geocoding cache, query the geocoder for the pairs that are not
    cached, write the cache back, join the coordinates onto the rows and
    build one point per resolved row.

    Modelling choices.
    - Python strings are modelled as [string].  [strip] and [title] are
      those of CPython on ASCII text ([PyStr.isascii]); beyond ASCII
      CPython follows the Unicode tables and the model does not.  A theorem
      that rests on what [strip] and [title] do to the characters carries
      the condition.
    - A pandas column cell is missing ([NaN]) or holds a value.  The street,
      city and state columns are text columns (dtype object): a cell is an
      optional string.  The postal code holds a string (a text column) or
      an integer (an int64 column, which has no missing value); a column of
      integers and missing values is a float64 column, whose rendering by
      [astype(str)] is outside the model.
    - Latitudes and longitudes are floats that the script only moves around;
      their type is a parameter of the development.
    - The geocoder is an external service: a state type with a transition
      function that answers one query.  The answer is a location (a truthy
      object), [None], or an exception that [except Exception] catches; the
      delays and retries of the rate limiter happen inside the call.
    - The file system holds one cache file, [option (list entry)]: the
      table that [read_csv] gives for it, CSV text left aside.  The console
      output is left out; geocoder calls, the extra sleep and the writes of
      the cache file are recorded in an event log.
    - The download of the state boundary and the plot come after the last
      line modelled, line 118. *)

From stdpp Require Import base decidable option list strings pretty gmap.
From Stdlib Require Import Ascii ZArith Lia.

Open Scope string_scope.
Open Scope list_scope.
Open Scope nat_scope.

(** ** Strings: [str.strip] and [str.title] *)

Module PyStr.

Definition code (c : ascii) : N := Ascii.N_of_ascii c.

(** [str.isspace] on one character, ASCII range: TAB, LF, VT, FF, CR,
    the four separators 0x1c-0x1f and the space. *)
Definition isspace (c : ascii) : bool :=
  let n := code c in
  ((9 <=? n) && (n <=? 13) || (28 <=? n) && (n <=? 32))%N.

Definition isupper (c : ascii) : bool :=
  let n := code c in ((65 <=? n) && (n <=? 90))%N.

Definition islower (c : ascii) : bool :=
  let n := code c in ((97 <=? n) && (n <=? 122))%N.

(** A cased character: one that has an upper or a lower case form. *)
Definition iscased (c : ascii) : bool := isupper c || islower c.

Definition upper (c : ascii) : ascii :=
  if islower c then Ascii.ascii_of_N (code c - 32) else c.

Definition lower (c : ascii) : ascii :=
  if isupper c then Ascii.ascii_of_N (code c + 32) else c.

(** [s.lstrip()] *)
Fixpoint lstrip (s : string) : string :=
  match s with
  | String c s' => if isspace c then lstrip s' else s
  | EmptyString => EmptyString
  end.

(** [s.rstrip()]: a character is dropped when it is white space and
    everything after it has been dropped. *)
Fixpoint rstrip (s : string) : string :=
  match s with
  | String c s' =>
      match rstrip s' with
      | EmptyString => if isspace c then EmptyString else String c EmptyString
      | r => String c r
      end
  | EmptyString => EmptyString
  end.

(** [s.strip()] *)
Definition strip (s : string) : string := rstrip (lstrip s).

(** [s.title()]: CPython walks the string with a flag telling whether the
    previous character was cased; a character after a cased one is
    lowered, any other one is put in title (upper) case. *)
Fixpoint title_from (previous_is_cased : bool) (s : string) : string :=
  match s with
  | String c s' =>
      String (if previous_is_cased then lower c else upper c)
             (title_from (iscased c) s')
  | EmptyString => EmptyString
  end.

Definition title (s : string) : string := title_from false s.

(** [s.isascii()]: every character has a code below 128.  These are the
    strings on which [strip] and [title] above are the functions of
    CPython; for other characters CPython consults the Unicode tables
    (more white space, cased letters beyond A-Z, expansions), which the
    functions above do not. *)
Definition isascii_char (c : ascii) : bool := (code c <? 128)%N.

Fixpoint isascii (s : string) : bool :=
  match s with
  | String c s' => isascii_char c && isascii s'
  | EmptyString => true
  end.

End PyStr.

(** ** The jobs table *)

(** A cell of the postal-code column.  [Int] is a cell of an int64 column;
    such a column has no [NaN] cell. *)
Inductive cell : Type :=
  | NaN
  | Str (s : string)
  | Int (z : Z).

(** One row of [jobs.csv].  The script names four columns; the other
    columns of the row are carried along untouched. *)
Record record : Type := mk_record {
  EMPLOYER_ADDRESS_1 : option string;
  EMPLOYER_CITY : option string;
  EMPLOYER_STATE : option string;
  EMPLOYER_POSTAL_CODE : cell;
  other_columns : list (string * cell)
}.

(** [Series.fillna("")] on a text cell. *)
Definition fillna (c : option string) : string := default "" c.

(** [Series.fillna("").astype(str)] on a postal-code cell. *)
Definition fillna_astype_str (c : cell) : string :=
  match c with
  | NaN => ""
  | Str s => s
  | Int z => pretty z
  end.

(** [jobs[jobs["EMPLOYER_STATE"] == "GA"]] *)
Definition is_GA (r : record) : bool :=
  match EMPLOYER_STATE r with
  | Some s => String.eqb s "GA"
  | None => false
  end.

Definition filter_GA (jobs : list record) : list record :=
  List.filter is_GA jobs.

(** Two conditions on [jobs.csv] under which the script meets no error
    that [main] below leaves out.  The street and the city column are text
    columns: each holds a text somewhere in the file (a column of missing
    values only is a float column, on which [.str] of lines 20-21 is
    refused when no Georgia row fills it).  No column is named like the two
    the merge of line 112 brings: with such a column pandas renames both
    sides and [dropna] of line 113 finds no column [latitude]. *)
Definition text_columns (jobs : list record) : bool :=
  existsb (λ rec, bool_decide (is_Some (EMPLOYER_ADDRESS_1 rec))) jobs
  && existsb (λ rec, bool_decide (is_Some (EMPLOYER_CITY rec))) jobs.

Definition coordinate_column (name : string) : bool :=
  String.eqb name "latitude" || String.eqb name "longitude".

Definition no_coordinate_columns (jobs : list record) : bool :=
  forallb (λ rec, negb (existsb (λ col, coordinate_column col.1) (other_columns rec)))
          jobs.

(** [.fillna("").str.strip().str.title()] *)
Definition standardize (c : option string) : string :=
  PyStr.title (PyStr.strip (fillna c)).

(** A row of [jobs_ga] after lines 20-36: the two standardized columns are
    overwritten and the two address columns are added. *)
Record job_row : Type := mk_job_row {
  source : record;
  address_1 : string;
  city : string;
  full_address : string;
  simple_address : string
}.

Definition normalize (r : record) : job_row :=
  let a := standardize (EMPLOYER_ADDRESS_1 r) in
  let c := standardize (EMPLOYER_CITY r) in
  let st := fillna (EMPLOYER_STATE r) in
  let zip := fillna_astype_str (EMPLOYER_POSTAL_CODE r) in
  {| source := r;
     address_1 := a;
     city := c;
     full_address :=
       (fillna (Some a) ++ ", " ++ fillna (Some c) ++ ", " ++ st ++ " " ++ zip)%string;
     simple_address :=
       (fillna (Some c) ++ ", " ++ st ++ " " ++ zip)%string |}.

(** The address fields of a record with every missing value replaced by
    the empty string. *)
Definition address_fields (r : record) : string * string * string * cell :=
  (fillna (EMPLOYER_ADDRESS_1 r), fillna (EMPLOYER_CITY r),
   fillna (EMPLOYER_STATE r),
   match EMPLOYER_POSTAL_CODE r with NaN => Str "" | c => c end).

(** The pair of columns [["full_address", "simple_address"]] of a row. *)
Definition address_pair : Type := string * string.

Definition pair_of (r : job_row) : address_pair :=
  (full_address r, simple_address r).

Definition jobs_ga_of (jobs : list record) : list job_row :=
  map normalize (filter_GA jobs).

(** ** The deduplicator: [DataFrame.drop_duplicates()] *)

(** pandas keeps a row when no equal row came before it ([keep="first"]);
    [seen] holds the rows met so far. *)
Fixpoint drop_duplicates_from `{EqDecision A} (seen l : list A) : list A :=
  match l with
  | [] => []
  | x :: l' =>
      if decide (x ∈ seen) then drop_duplicates_from seen l'
      else x :: drop_duplicates_from (x :: seen) l'
  end.

Definition drop_duplicates `{EqDecision A} (l : list A) : list A :=
  drop_duplicates_from [] l.

(** [jobs_ga[["full_address", "simple_address"]].drop_duplicates()] *)
Definition unique_addresses_of (jobs_ga : list job_row) : list address_pair :=
  drop_duplicates (map pair_of jobs_ga).

(** ** Cache, geocoder and the geocoding loop *)

Inductive error : Type :=
  | FileNotFoundError
  | KeyError (key : string).

(** [Point(xy)] of shapely: the first component is [x], the second [y]. *)
Record Point {coord : Type} : Type := mk_Point { x : coord; y : coord }.
Arguments Point : clear implicits.

(** One row of the cache table, one dictionary of [geocoded_results]. *)
Record entry {coord : Type} : Type := mk_entry {
  entry_full_address : string;
  latitude : option coord;
  longitude : option coord
}.
Arguments entry : clear implicits.
Arguments mk_entry {coord} _ _ _.

(** What a call of [geocode] gives: a location, [None], or an exception. *)
Inductive answer {coord : Type} : Type :=
  | Location (lat lon : coord)
  | NoLocation
  | Raised.
Arguments answer : clear implicits.

Inductive event {coord : Type} : Type :=
  | Geocode (query : string)
  | Sleep (seconds : nat)
  | To_csv (rows : list (entry coord)).
Arguments event : clear implicits.

(** The strings the geocoder was asked, in order. *)
Definition queries {coord} (log : list (event coord)) : list string :=
  omap (λ e, match e with Geocode q => Some q | _ => None end) log.

(** The tables written to the cache file, in order. *)
Definition writes {coord} (log : list (event coord)) : list (list (entry coord)) :=
  omap (λ e, match e with To_csv rows => Some rows | _ => None end) log.

Definition sleeps {coord} (log : list (event coord)) : list nat :=
  omap (λ e, match e with Sleep n => Some n | _ => None end) log.

(** A row of [jobs_ga_geo]: a row of [jobs_ga] with the two joined columns. *)
Record merged_row {coord : Type} : Type := mk_merged_row {
  left_row : job_row;
  row_latitude : option coord;
  row_longitude : option coord
}.
Arguments merged_row : clear implicits.
Arguments mk_merged_row {coord} _ _ _.

(** [jobs_ga.merge(geocoded_df, on="full_address", how="left")]: every left
    row, in order, once per cache row with its key, or once with missing
    coordinates when no cache row has its key. *)
Definition matches {coord} (geocoded_df : list (entry coord)) (r : job_row)
  : list (entry coord) :=
  filter (λ e, entry_full_address e = full_address r) geocoded_df.

Definition merge_left {coord} (jobs_ga : list job_row)
    (geocoded_df : list (entry coord)) : list (merged_row coord) :=
  r ← jobs_ga;
  match matches geocoded_df r with
  | [] => [mk_merged_row r None None]
  | ms => map (λ e, mk_merged_row r (latitude e) (longitude e)) ms
  end.

(** [dropna(subset=["latitude", "longitude"])] *)
Definition has_coordinates {coord} (m : merged_row coord) : bool :=
  match row_latitude m, row_longitude m with
  | Some _, Some _ => true
  | _, _ => false
  end.

Definition dropna {coord} (rows : list (merged_row coord)) : list (merged_row coord) :=
  List.filter has_coordinates rows.

(** [[Point(xy) for xy in zip(longitude, latitude)]] over rows that passed
    [dropna]; a row without coordinates yields no point. *)
Definition point_of {coord} (m : merged_row coord) : option (Point coord) :=
  match row_longitude m, row_latitude m with
  | Some lon, Some lat => Some (mk_Point coord lon lat)
  | _, _ => None
  end.

Definition geometry_of {coord} (rows : list (merged_row coord)) : list (Point coord) :=
  omap point_of rows.

Section Pipeline.

Context {coord : Type}.

(** The geocoder, [RateLimiter(geolocator.geocode, ...)]: an external
    service with a state of its own. *)
Context {service : Type}.
Variable geocode : service → string → answer coord * service.

(** The state the script threads through the loop. *)
Record state : Type := mk_state {
  svc : service;
  geocoded_results : list (entry coord);
  CACHE_FILE : option (list (entry coord));
  log : list (event coord)
}.

(** Lines 45-56: the rows still to geocode and the initial result list.
    [already_geocoded] is the Python set of the cached keys. *)
Definition already_geocoded_of (geocoded_df : list (entry coord)) : gset string :=
  list_to_set (map entry_full_address geocoded_df).

Definition to_geocode_of (cache : option (list (entry coord)))
    (unique_addresses : list address_pair) : list address_pair :=
  match cache with
  | Some geocoded_df =>
      filter (λ p : address_pair, p.1 ∉ already_geocoded_of geocoded_df)
             unique_addresses
  | None => unique_addresses
  end.

Definition loaded_results (cache : option (list (entry coord))) : list (entry coord) :=
  match cache with
  | Some geocoded_df => geocoded_df
  | None => []
  end.

Definition start (cache : option (list (entry coord))) (s : service) : state :=
  {| svc := s; geocoded_results := loaded_results cache;
     CACHE_FILE := cache; log := [] |}.

(** Lines 69-74: the full address first, the simple address when the
    first call gave [None] and the two strings differ.  An exception of
    either call leaves the [try] block at once. *)
Definition lookup (s : service) (address simple_addr : string)
  : list (event coord) * answer coord * service :=
  let '(location, s1) := geocode s address in
  match location with
  | NoLocation =>
      if decide (simple_addr ≠ address) then
        let '(location, s2) := geocode s1 simple_addr in
        ([Geocode address; Geocode simple_addr], location, s2)
      else ([Geocode address], NoLocation, s1)
  | _ => ([Geocode address], location, s1)
  end.

(** Lines 76-96: the dictionary appended for the row and the events of
    the branch taken. *)
Definition record_answer (address : string) (location : answer coord)
  : entry coord * list (event coord) :=
  match location with
  | Location lat lon => (mk_entry address (Some lat) (Some lon), [])
  | NoLocation => (mk_entry address None None, [])
  | Raised => (mk_entry address None None, [Sleep 2])
  end.

(** One iteration of the loop, lines 64-103. *)
Definition geocode_row (st : state) (row : address_pair) : state :=
  let '(address, simple_addr) := row in
  let '(calls, location, s') := lookup (svc st) address simple_addr in
  let '(new_entry, pause) := record_answer address location in
  let results := geocoded_results st ++ [new_entry] in
  let completed := length results in
  if completed mod 10 =? 0 then
    {| svc := s'; geocoded_results := results;
       CACHE_FILE := Some results;
       log := log st ++ calls ++ pause ++ [To_csv results] |}
  else
    {| svc := s'; geocoded_results := results;
       CACHE_FILE := CACHE_FILE st;
       log := log st ++ calls ++ pause |}.

(** The same iteration in its two steps.  Lines 64-96: the lookup and the
    append. *)
Definition append_row (st : state) (row : address_pair) : state :=
  let '(address, simple_addr) := row in
  let '(calls, location, s') := lookup (svc st) address simple_addr in
  let '(new_entry, pause) := record_answer address location in
  {| svc := s'; geocoded_results := geocoded_results st ++ [new_entry];
     CACHE_FILE := CACHE_FILE st;
     log := log st ++ calls ++ pause |}.

(** Lines 98-103: the progress check and the write. *)
Definition progress (st : state) : state :=
  let completed := length (geocoded_results st) in
  if completed mod 10 =? 0 then
    {| svc := svc st; geocoded_results := geocoded_results st;
       CACHE_FILE := Some (geocoded_results st);
       log := log st ++ [To_csv (geocoded_results st)] |}
  else st.

(** The dictionary an iteration appends and the events it logs before the
    progress check. *)
Definition new_entry_of (st : state) (row : address_pair) : entry coord :=
  (record_answer row.1 (lookup (svc st) row.1 row.2).1.2).1.

Definition lookup_events (st : state) (row : address_pair) : list (event coord) :=
  (lookup (svc st) row.1 row.2).1.1
    ++ (record_answer row.1 (lookup (svc st) row.1 row.2).1.2).2.

(** Lines 59-103. *)
Definition geocode_loop (st : state) (to_geocode : list address_pair) : state :=
  if 0 <? length to_geocode then foldl geocode_row st to_geocode else st.

(** Lines 106-107. *)
Definition save_final (st : state) : state :=
  {| svc := svc st; geocoded_results := geocoded_results st;
     CACHE_FILE := Some (geocoded_results st);
     log := log st ++ [To_csv (geocoded_results st)] |}.

(** Line 108: [pd.DataFrame([])] has no column, so indexing it with
    ["latitude"] raises; a frame built from at least one dictionary has
    the three columns. *)
Definition success_count (geocoded_df : list (entry coord)) : error + nat :=
  match geocoded_df with
  | [] => inl (KeyError "latitude")
  | _ => inr (length (filter (λ e, is_Some (latitude e)) geocoded_df))
  end.

(** The rows a crash leaves on disk. *)
Definition persisted (st : state) : list (entry coord) :=
  default [] (CACHE_FILE st).

(** Between two writes fewer than ten dictionaries pile up: the ones not on
    disk are at most as many as the length of the list modulo ten. *)
Definition flush_invariant (st : state) : Prop :=
  ∃ unflushed,
    geocoded_results st = persisted st ++ unflushed ∧
    length unflushed ≤ length (geocoded_results st) mod 10.

Record output : Type := mk_output {
  jobs_ga_geo : list (merged_row coord);
  geometry : list (Point coord)
}.

(** The script up to line 118.  [input] is the content of [jobs.csv] when
    the file exists, [cache] the content of the cache file when it
    exists.  The errors followed are the missing input file and the
    [KeyError] of line 108.  [cache] stands for a table that [read_csv]
    returns, with its three columns; the file that line 107 writes for an
    empty list has no column and is not such a table.  The columns of
    [jobs.csv] are taken to satisfy [text_columns] and
    [no_coordinate_columns]. *)
Definition main (input : option (list record))
    (cache : option (list (entry coord))) (s : service)
  : state * (error + output) :=
  match input with
  | None => (start cache s, inl FileNotFoundError)
  | Some jobs =>
      let jobs_ga := jobs_ga_of jobs in
      let unique_addresses := unique_addresses_of jobs_ga in
      let to_geocode := to_geocode_of cache unique_addresses in
      let st := save_final (geocode_loop (start cache s) to_geocode) in
      let geocoded_df := geocoded_results st in
      match success_count geocoded_df with
      | inl e => (st, inl e)
      | inr _ =>
          let resolved := dropna (merge_left jobs_ga geocoded_df) in
          (st, inr {| jobs_ga_geo := resolved; geometry := geometry_of resolved |})
      end
  end.

End Pipeline.

Arguments state : clear implicits.
Arguments output : clear implicits.

(** ** Sample data *)

Module Sample.

(** Coordinates in micro-degrees. *)
Definition coord : Type := Z.

Definition job (street town : string) (zip : Z) : record :=
  {| EMPLOYER_ADDRESS_1 := Some street; EMPLOYER_CITY := Some town;
     EMPLOYER_STATE := Some "GA"; EMPLOYER_POSTAL_CODE := Int zip;
     other_columns := [] |}.

(** Two employers whose street and city split differently around the same
    text. *)
Definition jobs_split : list record :=
  [ job "12 Oak St, Unit 4" "Macon" 31201;
    job "12 Oak St" "Unit 4, Macon" 31201 ].

(** A geocoder without state that knows one string. *)
Definition knows (known : string) (lat lon : coord) (_ : unit) (q : string)
  : answer coord * unit :=
  (if decide (q = known) then Location lat lon else NoLocation, ()).

Definition split_address : string := "12 Oak St, Unit 4, Macon, GA 31201".

(** The geocoder finds the town of the first employer and nothing else. *)
Definition macon_only : unit → string → answer coord * unit :=
  knows "Macon, GA 31201" 32840000%Z (-83632000)%Z.

(** A geocoder that finds nothing, and one that raises at every call. *)
Definition silent (_ : unit) (_ : string) : answer coord * unit :=
  (NoLocation, ()).

Definition failing (_ : unit) (_ : string) : answer coord * unit :=
  (Raised, ()).

(** Twelve employers on one street, and a cache file that holds the first
    of them. *)
Definition jobs_twelve : list record :=
  map (λ n : nat, job (pretty n ++ " Main St") "Macon" 31201) (seq 1 12).

Definition cache_one : list (entry coord) :=
  [mk_entry "1 Main St, Macon, GA 31201" (Some 32840000%Z) (Some (-83632000)%Z)].

(** The rows of the loop for these jobs and this cache, and the state after
    the first [k] of them. *)
Definition pending_twelve : list address_pair :=
  to_geocode_of (Some cache_one) (unique_addresses_of (jobs_ga_of jobs_twelve)).

Definition after (k : nat) : state coord unit :=
  geocode_loop silent (start (Some cache_one) ()) (take k pending_twelve).

(** The twelve without a cache file: the rows of the loop, the tenth of
    them, and the state inside the tenth iteration, after the append and
    before the progress check. *)
Definition pending_fresh : list address_pair :=
  to_geocode_of (coord:=coord) None (unique_addresses_of (jobs_ga_of jobs_twelve)).

Definition tenth_row : address_pair :=
  ("10 Main St, Macon, GA 31201", "Macon, GA 31201").

Definition inside_tenth : state coord unit :=
  append_row silent
    (geocode_loop silent (start None ()) (take 9 pending_fresh)) tenth_row.

(** A cache file that holds the first of the twelve without coordinates. *)
Definition cache_negative : list (entry coord) :=
  [mk_entry "1 Main St, Macon, GA 31201" None None].

(** A geocoder that places every string at one spot. *)
Definition everywhere (_ : unit) (_ : string) : answer coord * unit :=
  (Location 32840000%Z (-83632000)%Z, ()).

(** A jobs file without a Georgia employer. *)
Definition jobs_texas : list record :=
  [ {| EMPLOYER_ADDRESS_1 := Some "1 Elm St"; EMPLOYER_CITY := Some "Waco";
       EMPLOYER_STATE := Some "TX"; EMPLOYER_POSTAL_CODE := Int 76701;
       other_columns := [] |} ].

(** Two filings of one employer, without street and postal code. *)
Definition filing_first : record :=
  {| EMPLOYER_ADDRESS_1 := None; EMPLOYER_CITY := Some " macon";
     EMPLOYER_STATE := Some "GA"; EMPLOYER_POSTAL_CODE := NaN;
     other_columns := [("CASE_NUMBER", Str "H-300-20001")] |}.

Definition filing_second : record :=
  {| EMPLOYER_ADDRESS_1 := None; EMPLOYER_CITY := Some " macon";
     EMPLOYER_STATE := Some "GA"; EMPLOYER_POSTAL_CODE := NaN;
     other_columns := [("CASE_NUMBER", Str "H-300-20002")] |}.

End Sample.

(** ** Properties of the deduplicator *)

Section Drop_duplicates.

Context `{EqDecision A}.
Implicit Types (x : A) (l seen : list A).

Lemma elem_of_drop_duplicates_from seen l x :
  x ∈ drop_duplicates_from seen l ↔ x ∈ l ∧ x ∉ seen.
Proof.
  revert seen. induction l as [|a l IH]; intros seen; simpl.
  - split; [intros H; inversion H | intros [H _]; inversion H].
  - destruct (decide (a ∈ seen)) as [Hin|Hnin].
    + rewrite IH, elem_of_cons. split; [tauto|].
      intros [[->|H] Hx]; tauto.
    + rewrite elem_of_cons, IH, !elem_of_cons. split.
      * intros [->|[H Hx]]; [tauto|]. split; [tauto|]. intros Hs. apply Hx. tauto.
      * intros [[->|H] Hx]; [tauto|].
        destruct (decide (x = a)) as [->|Hne]; [tauto|].
        right. split; [done|]. intros [?|?]; tauto.
Qed.

Lemma NoDup_drop_duplicates_from seen l : NoDup (drop_duplicates_from seen l).
Proof.
  revert seen. induction l as [|a l IH]; intros seen; simpl.
  - constructor.
  - destruct (decide (a ∈ seen)); [apply IH|].
    constructor; [|apply IH].
    rewrite elem_of_drop_duplicates_from, elem_of_cons. tauto.
Qed.

Lemma length_drop_duplicates_from seen l :
  length (drop_duplicates_from seen l) ≤ length l.
Proof.
  revert seen. induction l as [|a l IH]; intros seen; simpl; [lia|].
  destruct (decide (a ∈ seen)); simpl.
  - specialize (IH seen). lia.
  - specialize (IH (a :: seen)). lia.
Qed.

(** Order: when [p] stands before [q] in the result, [p] occurs in the
    input at a place up to which [q] has not occurred. *)
Lemma order_drop_duplicates_from seen l i j p q :
  drop_duplicates_from seen l !! i = Some p →
  drop_duplicates_from seen l !! j = Some q →
  i < j →
  ∃ k, l !! k = Some p ∧ ∀ k', k' ≤ k → l !! k' ≠ Some q.
Proof.
  revert seen i j. induction l as [|a l IH]; intros seen i j; simpl.
  - intros H. inversion H.
  - destruct (decide (a ∈ seen)) as [Hin|Hnin].
    + intros Hp Hq Hij.
      destruct (IH _ _ _ Hp Hq Hij) as (k & Hk & Hbefore).
      exists (S k). split; [done|].
      intros [|k'] Hle; simpl.
      * intros [= ->].
        apply list_elem_of_lookup_2, elem_of_drop_duplicates_from in Hq. tauto.
      * apply Hbefore. lia.
    + destruct j as [|j]; [lia|]. simpl. intros Hp Hq Hij.
      assert (q ≠ a) as Hqa.
      { apply list_elem_of_lookup_2, elem_of_drop_duplicates_from in Hq.
        rewrite elem_of_cons in Hq. intros ->. tauto. }
      destruct i as [|i]; simpl in Hp.
      * injection Hp as ->. exists 0. split; [done|].
        intros k' Hle. replace k' with 0 by lia. simpl. congruence.
      * destruct (IH _ _ _ Hp Hq ltac:(lia)) as (k & Hk & Hbefore).
        exists (S k). split; [done|].
        intros [|k'] Hle; simpl; [congruence|]. apply Hbefore. lia.
Qed.

Lemma elem_of_drop_duplicates l x : x ∈ drop_duplicates l ↔ x ∈ l.
Proof.
  unfold drop_duplicates. rewrite elem_of_drop_duplicates_from.
  split; [tauto|]. intros H. split; [done|]. intros Hn. inversion Hn.
Qed.

Lemma NoDup_drop_duplicates l : NoDup (drop_duplicates l).
Proof. apply NoDup_drop_duplicates_from. Qed.

(** An element of a list without duplicates is found there once. *)
Lemma NoDup_occurs_once l x :
  NoDup l → x ∈ l → length (filter (λ y, y = x) l) = 1.
Proof.
  induction 1 as [|a l Hnin Hnd IH]; intros Hx; [inversion Hx|].
  rewrite filter_cons. destruct (decide (a = x)) as [->|Hne]; simpl.
  - f_equal. destruct (filter _ l) as [|y k] eqn:E; [done|].
    assert (y ∈ filter (λ y, y = x) l) as Hy by (rewrite E; left).
    apply list_elem_of_filter in Hy as [-> Hy]. done.
  - apply IH. apply elem_of_cons in Hx as [->|]; done.
Qed.

End Drop_duplicates.

(** ** The address normalizer and the unique addresses *)

(** C9.  Two records with the same street, city, state and postal-code
    values, a missing value counting as the empty string, get the same
    (full_address, simple_address) pair: the pair is a function of the four
    address fields and of nothing else in the record. *)
Theorem normalize_deterministic (r1 r2 : record) :
  address_fields r1 = address_fields r2 →
  pair_of (normalize r1) = pair_of (normalize r2).
Proof.
  unfold address_fields, pair_of, normalize. simpl. intros [= Ha Hc Hs Hz].
  assert (fillna_astype_str (EMPLOYER_POSTAL_CODE r1)
          = fillna_astype_str (EMPLOYER_POSTAL_CODE r2)) as Hzip.
  { destruct (EMPLOYER_POSTAL_CODE r1), (EMPLOYER_POSTAL_CODE r2);
      simpl; congruence. }
  unfold standardize. rewrite Ha, Hc, Hs, Hzip. reflexivity.
Qed.

Lemma normalize_deterministic_witness :
  address_fields Sample.filing_first
    = address_fields Sample.filing_second ∧
  pair_of (normalize Sample.filing_first)
    = pair_of (normalize Sample.filing_second) ∧
  pair_of (normalize Sample.filing_first) = (", Macon, GA ", "Macon, GA ").
Proof.
  split; [reflexivity|]. split; [|reflexivity].
  apply (normalize_deterministic Sample.filing_first
           Sample.filing_second).
  reflexivity.
Defined.

(** C8.  The unique addresses of the filtered records are at most as many
    as the records, hold the pair of every record exactly once and nothing
    else, and stand in the order of their first occurrences: when [p] comes
    before [q], the records reach [p] before they reach [q]. *)
Theorem unique_addresses_first_occurrences (jobs : list record) :
  let jobs_ga := jobs_ga_of jobs in
  let pairs := map pair_of jobs_ga in
  let unique_addresses := unique_addresses_of jobs_ga in
  length unique_addresses ≤ length jobs_ga ∧
  (∀ r, r ∈ jobs_ga →
     length (filter (λ p, p = pair_of r) unique_addresses) = 1) ∧
  (∀ p, p ∈ unique_addresses → ∃ r, r ∈ jobs_ga ∧ p = pair_of r) ∧
  (∀ i j p q,
     unique_addresses !! i = Some p → unique_addresses !! j = Some q → i < j →
     ∃ k, pairs !! k = Some p ∧ ∀ k', k' ≤ k → pairs !! k' ≠ Some q).
Proof.
  intros jobs_ga pairs unique_addresses. repeat split.
  - unfold unique_addresses, unique_addresses_of, drop_duplicates.
    etrans; [apply length_drop_duplicates_from|]. by rewrite length_map.
  - intros r Hr. apply NoDup_occurs_once; [apply NoDup_drop_duplicates|].
    apply elem_of_drop_duplicates, list_elem_of_fmap. eauto.
  - intros p Hp. apply elem_of_drop_duplicates, list_elem_of_fmap in Hp.
    destruct Hp as (r & -> & Hr). eauto.
  - intros i j p q. apply order_drop_duplicates_from.
Qed.

(** ** One iteration and the loop *)

Section Loop.

Context {coord service : Type}.
Variable geocode : service → string → answer coord * service.
Implicit Types (st : state coord service) (row : address_pair) (s : service).
Implicit Types (cache : option (list (entry coord))) (jobs : list record).

Lemma geocode_row_results st row :
  geocoded_results (geocode_row geocode st row)
  = geocoded_results st ++ [new_entry_of geocode st row].
Proof.
  unfold geocode_row, new_entry_of. destruct row as [address simple_addr].
  cbn [fst snd].
  destruct (lookup geocode (svc st) address simple_addr) as [[calls location] s'].
  cbn [fst snd].
  destruct (record_answer address location) as [new_entry pause].
  by case_match.
Qed.

Lemma geocode_row_file st row :
  CACHE_FILE (geocode_row geocode st row)
  = if length (geocoded_results (geocode_row geocode st row)) mod 10 =? 0
    then Some (geocoded_results (geocode_row geocode st row))
    else CACHE_FILE st.
Proof.
  unfold geocode_row. destruct row as [address simple_addr].
  destruct (lookup geocode (svc st) address simple_addr) as [[calls location] s'].
  destruct (record_answer address location) as [new_entry pause].
  case_match eqn:E; cbn [geocoded_results CACHE_FILE]; by rewrite E.
Qed.

Lemma geocode_row_log st row :
  log (geocode_row geocode st row)
  = log st ++ lookup_events geocode st row
      ++ if length (geocoded_results (geocode_row geocode st row)) mod 10 =? 0
         then [To_csv (geocoded_results (geocode_row geocode st row))] else [].
Proof.
  unfold geocode_row, lookup_events. destruct row as [address simple_addr].
  cbn [fst snd].
  destruct (lookup geocode (svc st) address simple_addr) as [[calls location] s'].
  cbn [fst snd].
  destruct (record_answer address location) as [new_entry pause].
  case_match eqn:E; cbn [geocoded_results log snd]; rewrite E, <- ?app_assoc; [done|].
  by rewrite app_nil_r.
Qed.

Lemma new_entry_key st row : entry_full_address (new_entry_of geocode st row) = row.1.
Proof.
  unfold new_entry_of, record_answer.
  by destruct ((lookup geocode (svc st) row.1 row.2).1.2).
Qed.

Lemma geocode_loop_foldl st l : geocode_loop geocode st l = foldl (geocode_row geocode) st l.
Proof. unfold geocode_loop. by destruct l. Qed.

Lemma geocode_loop_nil st : geocode_loop geocode st [] = st.
Proof. reflexivity. Qed.

Lemma geocode_loop_cons st row l :
  geocode_loop geocode st (row :: l) = geocode_loop geocode (geocode_row geocode st row) l.
Proof. by rewrite !geocode_loop_foldl. Qed.

Lemma geocode_loop_snoc st l row :
  geocode_loop geocode st (l ++ [row]) = geocode_row geocode (geocode_loop geocode st l) row.
Proof. by rewrite !geocode_loop_foldl, foldl_snoc. Qed.

Lemma geocode_loop_app st l1 l2 :
  geocode_loop geocode st (l1 ++ l2) = geocode_loop geocode (geocode_loop geocode st l1) l2.
Proof. by rewrite !geocode_loop_foldl, foldl_app. Qed.

(** The loop appends one dictionary per row, keyed by the row's full
    address, whatever the geocoder answers. *)
Lemma geocode_loop_keys st l :
  map entry_full_address (geocoded_results (geocode_loop geocode st l))
  = map entry_full_address (geocoded_results st) ++ map fst l.
Proof.
  revert st. induction l as [|row l IH]; intros st.
  - by rewrite geocode_loop_nil, app_nil_r.
  - rewrite geocode_loop_cons, IH, geocode_row_results, map_app. simpl.
    by rewrite new_entry_key, <- app_assoc.
Qed.

Lemma geocode_loop_length st l :
  length (geocoded_results (geocode_loop geocode st l))
  = length (geocoded_results st) + length l.
Proof.
  rewrite <- (length_map entry_full_address), geocode_loop_keys.
  by rewrite length_app, !length_map.
Qed.

Lemma geocode_loop_prefix st l :
  ∃ new, geocoded_results (geocode_loop geocode st l) = geocoded_results st ++ new.
Proof.
  revert st. induction l as [|row l IH]; intros st.
  - exists []. by rewrite geocode_loop_nil, app_nil_r.
  - rewrite geocode_loop_cons. destruct (IH (geocode_row geocode st row)) as [new ->].
    rewrite geocode_row_results, <- app_assoc. eauto.
Qed.

(** *** The event log *)

Lemma queries_app (l1 l2 : list (event coord)) :
  queries (l1 ++ l2) = queries l1 ++ queries l2.
Proof. apply omap_app. Qed.

Lemma writes_app (l1 l2 : list (event coord)) :
  writes (l1 ++ l2) = writes l1 ++ writes l2.
Proof. apply omap_app. Qed.

Lemma sleeps_app (l1 l2 : list (event coord)) :
  sleeps (l1 ++ l2) = sleeps l1 ++ sleeps l2.
Proof. apply omap_app. Qed.

(** The calls of one lookup, by the answer to the first of them. *)
Lemma lookup_calls s address simple_addr :
  (lookup geocode s address simple_addr).1.1
  = Geocode address ::
      match (geocode s address).1 with
      | NoLocation => if decide (simple_addr ≠ address) then [Geocode simple_addr] else []
      | _ => []
      end.
Proof.
  unfold lookup. destruct (geocode s address) as [[lat lon| |] s1]; cbn [fst snd]; try done.
  destruct (decide (simple_addr ≠ address)); [|done].
  by destruct (geocode s1 simple_addr).
Qed.

Lemma record_answer_events address (location : answer coord) :
  queries (record_answer address location).2 = [] ∧
  writes (record_answer address location).2 = [] ∧
  sleeps (record_answer address location).2
  = match location with Raised => [2] | _ => [] end.
Proof. by destruct location. Qed.

Lemma lookup_events_queries st row :
  queries (lookup_events geocode st row)
  = row.1 ::
      match (geocode (svc st) row.1).1 with
      | NoLocation => if decide (row.2 ≠ row.1) then [row.2] else []
      | _ => []
      end.
Proof.
  unfold lookup_events.
  rewrite queries_app, (proj1 (record_answer_events _ _)), app_nil_r, lookup_calls.
  destruct ((geocode (svc st) row.1).1); try done.
  by destruct (decide (row.2 ≠ row.1)).
Qed.

Lemma lookup_events_writes st row : writes (lookup_events geocode st row) = [].
Proof.
  unfold lookup_events.
  rewrite writes_app, (proj1 (proj2 (record_answer_events _ _))), app_nil_r, lookup_calls.
  destruct ((geocode (svc st) row.1).1); try done.
  by destruct (decide (row.2 ≠ row.1)).
Qed.

Lemma lookup_events_sleeps st row :
  sleeps (lookup_events geocode st row)
  = match (lookup geocode (svc st) row.1 row.2).1.2 with Raised => [2] | _ => [] end.
Proof.
  unfold lookup_events.
  rewrite sleeps_app, (proj2 (proj2 (record_answer_events _ _))), lookup_calls.
  destruct ((geocode (svc st) row.1).1); try done.
  by destruct (decide (row.2 ≠ row.1)).
Qed.

Lemma geocode_row_queries st row :
  queries (log (geocode_row geocode st row))
  = queries (log st) ++ queries (lookup_events geocode st row).
Proof.
  rewrite geocode_row_log, !queries_app. f_equal.
  case_match; by rewrite ?app_nil_r.
Qed.

Lemma geocode_row_sleeps st row :
  sleeps (log (geocode_row geocode st row))
  = sleeps (log st) ++ sleeps (lookup_events geocode st row).
Proof.
  rewrite geocode_row_log, !sleeps_app. f_equal.
  case_match; by rewrite ?app_nil_r.
Qed.

Lemma geocode_row_writes st row :
  writes (log (geocode_row geocode st row))
  = writes (log st)
      ++ if length (geocoded_results (geocode_row geocode st row)) mod 10 =? 0
         then [geocoded_results (geocode_row geocode st row)] else [].
Proof.
  rewrite geocode_row_log, !writes_app, lookup_events_writes. f_equal.
  by case_match.
Qed.

(** *** The fallback query *)


(** *** Exceptions of the geocoder *)

Lemma success_count_cons (e : entry coord) l : ∃ n, success_count (e :: l) = inr n.
Proof. simpl. eauto. Qed.

(** A run that geocodes at least one row reaches the merge: no answer of
    the geocoder ends the script. *)
Lemma main_completes jobs cache s :
  to_geocode_of cache (unique_addresses_of (jobs_ga_of jobs)) ≠ [] →
  ∃ out, (main geocode (Some jobs) cache s).2 = inr out.
Proof.
  intros Hne. unfold main.
  set (to_geocode := to_geocode_of _ _) in *.
  set (st := save_final _).
  destruct (geocoded_results st) as [|e l] eqn:E.
  - exfalso. apply Hne, length_zero_iff_nil.
    assert (length (geocoded_results st) = 0) as Hlen by (by rewrite E).
    unfold st in Hlen. cbn [save_final geocoded_results] in Hlen.
    rewrite geocode_loop_length in Hlen. lia.
  - destruct (success_count_cons e l) as [n ->]. cbn [snd]. eauto.
Qed.

(** C7.  When the lookup of a row raises, the iteration appends the
    negative entry of the row, sleeps the two extra seconds, and the loop
    goes on with the rows that are left: each of them gets its entry and the
    script reaches the merge.  A missing input file is not recovered: the
    script stops there, before any lookup or write. *)
Theorem exception_recorded_and_loop_continues jobs cache s st row rest :
  (lookup geocode (svc st) row.1 row.2).1.2 = Raised →
  let st' := geocode_row geocode st row in
  geocoded_results st' = geocoded_results st ++ [mk_entry row.1 None None] ∧
  sleeps (log st') = sleeps (log st) ++ [2] ∧
  geocode_loop geocode st (row :: rest) = geocode_loop geocode st' rest ∧
  map entry_full_address (geocoded_results (geocode_loop geocode st (row :: rest)))
  = map entry_full_address (geocoded_results st) ++ row.1 :: map fst rest ∧
  (to_geocode_of cache (unique_addresses_of (jobs_ga_of jobs)) ≠ [] →
   ∃ out, (main geocode (Some jobs) cache s).2 = inr out) ∧
  main geocode None cache s = (start cache s, inl FileNotFoundError).
Proof.
  intros Hraised st'. unfold st'. repeat split.
  - rewrite geocode_row_results. unfold new_entry_of. by rewrite Hraised.
  - rewrite geocode_row_sleeps, lookup_events_sleeps. by rewrite Hraised.
  - apply geocode_loop_cons.
  - apply geocode_loop_keys.
  - apply main_completes.
Qed.

(** *** Writes of the cache file *)

Lemma mod_10_succ n : (n + 1) mod 10 ≠ 0 → (n + 1) mod 10 = n mod 10 + 1.
Proof.
  pose proof (Nat.div_mod_eq n 10) as H1.
  pose proof (Nat.div_mod_eq (n + 1) 10) as H2.
  pose proof (Nat.mod_upper_bound n 10) as H3.
  pose proof (Nat.mod_upper_bound (n + 1) 10) as H4.
  revert H1 H2 H3 H4.
  generalize (n mod 10) (n `div` 10) ((n + 1) mod 10) ((n + 1) `div` 10).
  intros r q r' q'. lia.
Qed.

Lemma flush_invariant_start (cache : option (list (entry coord))) (s : service) :
  flush_invariant (start cache s).
Proof.
  exists []. split; [|apply Nat.le_0_l].
  unfold persisted. destruct cache; simpl; by rewrite ?app_nil_r.
Qed.

Lemma flush_invariant_row st row :
  flush_invariant st → flush_invariant (geocode_row geocode st row).
Proof.
  intros (unflushed & Hres & Hlen). unfold flush_invariant, persisted in *.
  rewrite geocode_row_file.
  destruct (_ =? _) eqn:E.
  - exists []. split; [by rewrite app_nil_r | apply Nat.le_0_l].
  - apply Nat.eqb_neq in E. rewrite geocode_row_results in *.
    exists (unflushed ++ [new_entry_of geocode st row]). split.
    + by rewrite app_assoc, <- Hres.
    + rewrite !length_app in *. cbn [length] in *.
      rewrite (mod_10_succ _ E). lia.
Qed.

Lemma flush_invariant_loop st l :
  flush_invariant st → flush_invariant (geocode_loop geocode st l).
Proof.
  revert st. induction l as [|row l IH]; intros st Hst; [done|].
  rewrite geocode_loop_cons. by apply IH, flush_invariant_row.
Qed.

Lemma flush_invariant_bound st :
  flush_invariant st →
  ∃ unflushed, geocoded_results st = persisted st ++ unflushed ∧ length unflushed ≤ 9.
Proof.
  intros (unflushed & Hres & Hlen). exists unflushed. split; [done|].
  pose proof (Nat.mod_upper_bound (length (geocoded_results st)) 10). lia.
Qed.

(** Every table written by the loop extends the list the loop started
    with. *)
Lemma geocode_loop_writes st l rows :
  rows ∈ writes (log (geocode_loop geocode st l)) →
  rows ∈ writes (log st) ∨ ∃ new, rows = geocoded_results st ++ new.
Proof.
  revert st. induction l as [|row l IH]; intros st; [by left|].
  rewrite geocode_loop_cons. intros [Hin|[new ->]]%IH.
  - rewrite geocode_row_writes, elem_of_app in Hin. destruct Hin as [?|Hin]; [by left|].
    right. destruct (_ =? _); [|by inversion Hin].
    apply list_elem_of_singleton in Hin as ->.
    rewrite geocode_row_results. eauto.
  - right. rewrite geocode_row_results, <- app_assoc. eauto.
Qed.

(** The strings asked by the loop are those of its rows. *)
Lemma geocode_loop_queries st l q :
  q ∈ queries (log (geocode_loop geocode st l)) →
  q ∈ queries (log st) ∨ ∃ p, p ∈ l ∧ (q = p.1 ∨ (q = p.2 ∧ p.2 ≠ p.1)).
Proof.
  revert st. induction l as [|row l IH]; intros st; [by left|].
  rewrite geocode_loop_cons. intros [Hin|(p & Hp & Hq)]%IH.
  - rewrite geocode_row_queries, elem_of_app in Hin. destruct Hin as [?|Hin]; [by left|].
    right. exists row. split; [left|].
    rewrite lookup_events_queries in Hin.
    apply elem_of_cons in Hin as [->|Hin]; [by left|].
    destruct ((geocode (svc st) row.1).1); try by inversion Hin.
    destruct (decide (row.2 ≠ row.1)); [|by inversion Hin].
    apply list_elem_of_singleton in Hin as ->. by right.
  - right. exists p. split; [by right|done].
Qed.

Lemma elem_of_to_geocode (geocoded_df : list (entry coord))
    (unique_addresses : list address_pair) p :
  p ∈ to_geocode_of (Some geocoded_df) unique_addresses ↔
  p ∈ unique_addresses ∧ p.1 ∉ map entry_full_address geocoded_df.
Proof.
  unfold to_geocode_of, already_geocoded_of.
  rewrite list_elem_of_filter, elem_of_list_to_set. tauto.
Qed.

(** *** The two steps of an iteration *)

Lemma geocode_row_steps st row :
  geocode_row geocode st row = progress (append_row geocode st row).
Proof.
  unfold geocode_row, append_row, progress. destruct row as [address simple_addr].
  destruct (lookup geocode (svc st) address simple_addr) as [[calls location] s'].
  destruct (record_answer address location) as [new_entry pause].
  cbn [geocoded_results svc CACHE_FILE log].
  case_match; [|done]. by rewrite <- !app_assoc.
Qed.

Lemma append_row_results st row :
  geocoded_results (append_row geocode st row)
  = geocoded_results st ++ [new_entry_of geocode st row].
Proof.
  unfold append_row, new_entry_of. destruct row as [address simple_addr].
  cbn [fst snd].
  destruct (lookup geocode (svc st) address simple_addr) as [[calls location] s'].
  cbn [fst snd]. by destruct (record_answer address location).
Qed.

Lemma append_row_file st row :
  CACHE_FILE (append_row geocode st row) = CACHE_FILE st.
Proof.
  unfold append_row. destruct row as [address simple_addr].
  destruct (lookup geocode (svc st) address simple_addr) as [[calls location] s'].
  by destruct (record_answer address location).
Qed.

(** Inside an iteration, before the progress check, one more dictionary is
    off the disk than at its start. *)
Lemma flush_bound_inside st row :
  flush_invariant st →
  ∃ unflushed,
    geocoded_results (append_row geocode st row)
    = persisted (append_row geocode st row) ++ unflushed ∧
    length unflushed ≤ 10.
Proof.
  intros (unflushed & Hres & Hlen)%flush_invariant_bound.
  exists (unflushed ++ [new_entry_of geocode st row]).
  unfold persisted in *. rewrite append_row_results, append_row_file, Hres at 1.
  rewrite length_app. simpl. split; [by rewrite app_assoc|lia].
Qed.

(** *** The whole run *)

Lemma main_state jobs cache s :
  (main geocode (Some jobs) cache s).1
  = save_final
      (geocode_loop geocode (start cache s)
         (to_geocode_of cache (unique_addresses_of (jobs_ga_of jobs)))).
Proof. unfold main. by destruct (success_count _). Qed.

(** C5, as the script has it.  An iteration is an append followed by the
    progress check; the check writes the cache file exactly when the
    accumulated list, cached rows included, has reached a multiple of ten
    dictionaries, and it then writes the whole list over the file.  So
    when the loop is cut between two iterations, all but at most nine of
    the dictionaries are on disk; when it is cut inside an iteration,
    between the append and the progress check, all but at most ten.  Every
    table written holds the loaded rows followed by rows of the run, and
    the last write, after the loop, is the final list.  A write is one
    step: the file holds the table before it or the table after it. *)
Theorem flush_policy jobs cache s :
  let to_geocode := to_geocode_of cache (unique_addresses_of (jobs_ga_of jobs)) in
  let final := (main geocode (Some jobs) cache s).1 in
  (∀ st row,
     let st' := geocode_row geocode st row in
     st' = progress (append_row geocode st row) ∧
     length (geocoded_results st') = S (length (geocoded_results st)) ∧
     if length (geocoded_results st') mod 10 =? 0
     then CACHE_FILE st' = Some (geocoded_results st') ∧
          writes (log st') = writes (log st) ++ [geocoded_results st']
     else CACHE_FILE st' = CACHE_FILE st ∧ writes (log st') = writes (log st)) ∧
  (∀ k,
     let st := geocode_loop geocode (start cache s) (take k to_geocode) in
     ∃ unflushed,
       geocoded_results st = persisted st ++ unflushed ∧ length unflushed ≤ 9) ∧
  (∀ k row,
     to_geocode !! k = Some row →
     let st := geocode_loop geocode (start cache s) (take k to_geocode) in
     let inside := append_row geocode st row in
     geocode_loop geocode (start cache s) (take (S k) to_geocode) = progress inside ∧
     ∃ unflushed,
       geocoded_results inside = persisted inside ++ unflushed ∧
       length unflushed ≤ 10) ∧
  (∀ rows, rows ∈ writes (log final) → ∃ new, rows = loaded_results cache ++ new) ∧
  CACHE_FILE final = Some (geocoded_results final) ∧
  last (writes (log final)) = Some (geocoded_results final).
Proof.
  intros to_geocode final. split; [|split; [|split; [|split; [|split]]]].
  - intros st row st'. unfold st'. split; [apply geocode_row_steps|]. split.
    + rewrite geocode_row_results, length_app. simpl. lia.
    + rewrite geocode_row_file, geocode_row_writes.
      case_match; by rewrite ?app_nil_r.
  - intros k st. apply flush_invariant_bound, flush_invariant_loop,
      flush_invariant_start.
  - intros k row Hrow st inside. split.
    + rewrite (take_S_r _ _ _ Hrow), geocode_loop_snoc. apply geocode_row_steps.
    + apply flush_bound_inside, flush_invariant_loop, flush_invariant_start.
  - intros rows. unfold final. rewrite main_state.
    cbn [save_final log]. rewrite writes_app, elem_of_app.
    intros [Hin|Hin].
    + apply geocode_loop_writes in Hin as [Hin|Hin]; [by inversion Hin|done].
    + apply list_elem_of_singleton in Hin as ->. apply geocode_loop_prefix.
  - unfold final. by rewrite main_state.
  - unfold final. rewrite main_state. cbn [save_final log geocoded_results].
    rewrite writes_app. apply last_snoc.
Qed.

(** C2.  With a cache file loaded, the rows handed to the loop are the
    unique addresses whose full address is not a key of the cache, whatever
    coordinates the cache holds for the key.  Every call of the geocoder is
    made for one of these rows, with its full address or with its simple
    address; no row of a cached address [A] is among them. *)
Theorem cached_address_not_geocoded jobs (geocoded_df : list (entry coord)) s A :
  A ∈ map entry_full_address geocoded_df →
  let unique_addresses := unique_addresses_of (jobs_ga_of jobs) in
  let to_geocode := to_geocode_of (Some geocoded_df) unique_addresses in
  let final := (main geocode (Some jobs) (Some geocoded_df) s).1 in
  (∀ p, p ∈ to_geocode ↔
        p ∈ unique_addresses ∧ p.1 ∉ map entry_full_address geocoded_df) ∧
  (∀ p, p ∈ to_geocode → p.1 ≠ A) ∧
  (∀ q, q ∈ queries (log final) →
        ∃ p, p ∈ to_geocode ∧ p.1 ≠ A ∧ (q = p.1 ∨ (q = p.2 ∧ p.2 ≠ p.1))).
Proof.
  intros HA unique_addresses to_geocode final.
  assert (∀ p, p ∈ to_geocode → p.1 ≠ A) as Hpending.
  { intros p [_ Hp]%elem_of_to_geocode Heq. apply Hp. by rewrite Heq. }
  split; [apply elem_of_to_geocode|]. split; [done|].
  intros q. unfold final. rewrite main_state. cbn [save_final log].
  rewrite queries_app, app_nil_r.
  intros [Hin|(p & Hp & Hq)]%geocode_loop_queries; [by inversion Hin|].
  exists p. auto.
Qed.

(** C4.  When every unique address is a key of the cache file, the run
    asks the geocoder nothing and writes the cache file once, with the rows
    it loaded: the file after the run has the rows it had before. *)
Theorem cache_round_trip jobs (C : list (entry coord)) s :
  (∀ p, p ∈ unique_addresses_of (jobs_ga_of jobs) →
        p.1 ∈ map entry_full_address C) →
  let final := (main geocode (Some jobs) (Some C) s).1 in
  to_geocode_of (Some C) (unique_addresses_of (jobs_ga_of jobs)) = [] ∧
  queries (log final) = [] ∧
  writes (log final) = [C] ∧
  CACHE_FILE final = Some C ∧
  ∃ rows, CACHE_FILE final = Some rows ∧ rows ≡ₚ C.
Proof.
  intros Hall final.
  assert (to_geocode_of (Some C) (unique_addresses_of (jobs_ga_of jobs)) = [])
    as Hnone.
  { destruct (to_geocode_of _ _) as [|p l] eqn:E; [done|]. exfalso.
    assert (p ∈ to_geocode_of (Some C) (unique_addresses_of (jobs_ga_of jobs)))
      as [Hp Hnot]%elem_of_to_geocode by (rewrite E; left).
    by apply Hnot, Hall. }
  unfold final. rewrite main_state, Hnone. cbn. eauto 10.
Qed.

(** C10.  Without a cache file and without a Georgia record nothing is
    geocoded: the script writes an empty table to the cache file and then
    stops with a [KeyError] on the column [latitude] of that table; it
    reaches neither the merge nor the map. *)
Theorem empty_run_fails jobs s :
  filter_GA jobs = [] →
  main geocode (Some jobs) None s
  = ({| svc := s; geocoded_results := []; CACHE_FILE := Some [];
        log := [To_csv []] |},
     inl (KeyError "latitude")).
Proof.
  intros Hempty. unfold main, jobs_ga_of. rewrite Hempty. reflexivity.
Qed.

(** *** Keys of the cache table *)

(** The keys after the run: the loaded keys, then the full address of
    every geocoded row. *)
Lemma final_keys jobs cache s :
  map entry_full_address (geocoded_results (main geocode (Some jobs) cache s).1)
  = map entry_full_address (loaded_results cache)
      ++ map fst (to_geocode_of cache (unique_addresses_of (jobs_ga_of jobs))).
Proof. rewrite main_state. cbn [save_final geocoded_results]. apply geocode_loop_keys. Qed.

(** The keys of the final table differ from one another when the keys of
    the loaded table do and no two unique addresses share their full
    address. *)
Lemma final_keys_NoDup jobs cache s :
  NoDup (map entry_full_address (loaded_results cache)) →
  NoDup (map fst (unique_addresses_of (jobs_ga_of jobs))) →
  NoDup (map entry_full_address (geocoded_results (main geocode (Some jobs) cache s).1)).
Proof.
  intros Hloaded Hunique. rewrite final_keys. apply NoDup_app.
  split; [done|]. split.
  - intros k Hk Hin. apply list_elem_of_fmap in Hin as (p & -> & Hp).
    destruct cache as [geocoded_df|]; [|by inversion Hk].
    apply elem_of_to_geocode in Hp as [_ Hp]. done.
  - destruct cache as [geocoded_df|]; [|done].
    eapply sublist_NoDup; [exact Hunique|].
    apply (fmap_sublist fst), sublist_filter.
Qed.

End Loop.

(** ** The merge *)

Section Merge.

Context {coord : Type}.
Implicit Types (r : job_row) (e : entry coord) (m : merged_row coord).
Implicit Types (jobs_ga : list job_row) (geocoded_df : list (entry coord)).

Lemma elem_of_matches geocoded_df r e :
  e ∈ matches geocoded_df r ↔ entry_full_address e = full_address r ∧ e ∈ geocoded_df.
Proof. unfold matches. by rewrite list_elem_of_filter. Qed.

Lemma elem_of_merge_left jobs_ga geocoded_df m :
  m ∈ merge_left jobs_ga geocoded_df ↔
  left_row m ∈ jobs_ga ∧
  ((matches geocoded_df (left_row m) = [] ∧
    row_latitude m = None ∧ row_longitude m = None) ∨
   ∃ e, e ∈ matches geocoded_df (left_row m) ∧
        row_latitude m = latitude e ∧ row_longitude m = longitude e).
Proof.
  unfold merge_left. rewrite list_elem_of_bind. split.
  - intros (r & Hm & Hr). destruct (matches geocoded_df r) as [|e0 ms] eqn:E.
    + apply list_elem_of_singleton in Hm as ->. simpl. rewrite E. auto.
    + apply list_elem_of_fmap in Hm as (e & -> & He). simpl. rewrite E.
      split; [done|]. right. by exists e.
  - intros (Hr & H). exists (left_row m). split; [|done].
    destruct m as [r lat lon]. cbn [left_row row_latitude row_longitude] in *.
    destruct H as [(-> & -> & ->)|(e & He & -> & ->)]; [by left|].
    destruct (matches geocoded_df r) as [|e0 ms] eqn:E; [by inversion He|].
    exact (list_elem_of_fmap_2
             (λ e, mk_merged_row r (latitude e) (longitude e)) _ _ He).
Qed.

Lemma elem_of_dropna (rows : list (merged_row coord)) m :
  m ∈ dropna rows ↔
  m ∈ rows ∧ is_Some (row_latitude m) ∧ is_Some (row_longitude m).
Proof.
  unfold dropna. rewrite list_elem_of_In, filter_In, <- list_elem_of_In.
  unfold has_coordinates.
  destruct (row_latitude m), (row_longitude m); split; intros (? & H); split;
    try done; try (by split; eauto); destruct H as [[? ?] [? ?]]; done.
Qed.

(** A resolved row carries the coordinates of a cache row with its key. *)
Lemma resolved_from_cache jobs_ga geocoded_df m :
  m ∈ dropna (merge_left jobs_ga geocoded_df) →
  left_row m ∈ jobs_ga ∧
  ∃ e lat lon, e ∈ geocoded_df ∧
    entry_full_address e = full_address (left_row m) ∧
    latitude e = Some lat ∧ longitude e = Some lon ∧
    row_latitude m = Some lat ∧ row_longitude m = Some lon.
Proof.
  intros (Hm & [lat Hlat] & [lon Hlon])%elem_of_dropna.
  apply elem_of_merge_left in Hm as (Hr & [(_ & H & _)|(e & He & H1 & H2)]);
    [congruence|].
  split; [done|]. apply elem_of_matches in He as [Hkey He].
  exists e, lat, lon. repeat split; congruence.
Qed.

(** The points stand in the order of the resolved rows, longitude first. *)
Lemma geometry_of_dropna (rows : list (merged_row coord)) i m :
  dropna rows !! i = Some m →
  ∃ lat lon, row_latitude m = Some lat ∧ row_longitude m = Some lon ∧
    geometry_of (dropna rows) !! i = Some {| x := lon; y := lat |}.
Proof.
  unfold geometry_of, dropna. revert i.
  induction rows as [|a rows IH]; intros i; [intros H; inversion H|].
  cbn [List.filter]. destruct (has_coordinates a) eqn:E; [|apply IH].
  unfold has_coordinates in E.
  destruct (row_latitude a) as [lat|] eqn:Elat; [|done].
  destruct (row_longitude a) as [lon|] eqn:Elon; [|done].
  assert (point_of a = Some {| x := lon; y := lat |}) as Hp.
  { unfold point_of. by rewrite Elat, Elon. }
  csimpl. rewrite Hp. destruct i as [|i]; simpl; [|apply IH].
  intros [= <-]. eauto.
Qed.

(** With one cache row per key, a record whose key has a row without
    coordinates is not resolved. *)
Lemma negative_not_resolved jobs_ga geocoded_df e m :
  NoDup (map entry_full_address geocoded_df) →
  e ∈ geocoded_df →
  latitude e = None ∨ longitude e = None →
  m ∈ dropna (merge_left jobs_ga geocoded_df) →
  full_address (left_row m) ≠ entry_full_address e.
Proof.
  intros Hnodup He Hneg Hm Hkey.
  apply resolved_from_cache in Hm as (_ & e' & lat & lon & He' & Hkey' & Hlat & Hlon & _).
  assert (e' = e) as ->; [|destruct Hneg; congruence].
  apply list_elem_of_lookup in He as [i Hi], He' as [j Hj].
  assert (i = j) as ->; [|congruence].
  apply (NoDup_lookup _ i j (entry_full_address e) Hnodup).
  - change ((entry_full_address <$> geocoded_df) !! i = Some (entry_full_address e)).
    by rewrite list_lookup_fmap, Hi.
  - change ((entry_full_address <$> geocoded_df) !! j = Some (entry_full_address e)).
    rewrite list_lookup_fmap, Hj. simpl. congruence.
Qed.

End Merge.

(** ** The run on sample data *)

Lemma exception_recorded_witness :
  let row := ("12 Oak St, Macon, GA 31201", "Macon, GA 31201") in
  let st' := geocode_row Sample.failing (start None ()) row in
  geocoded_results st' = [mk_entry "12 Oak St, Macon, GA 31201" None None] ∧
  sleeps (log st') = [2].
Proof.
  intros row.
  destruct (exception_recorded_and_loop_continues Sample.failing
              Sample.jobs_split None () (start None ()) row [] eq_refl)
    as (Hresults & Hsleeps & _).
  split; [exact Hresults | exact Hsleeps].
Defined.

Lemma cached_address_not_geocoded_witness :
  "1 Main St, Macon, GA 31201" ∈ map entry_full_address Sample.cache_one ∧
  ∀ p, p ∈ Sample.pending_twelve → p.1 ≠ "1 Main St, Macon, GA 31201".
Proof.
  assert ("1 Main St, Macon, GA 31201" ∈ map entry_full_address Sample.cache_one)
    as Hcached by (vm_compute; left).
  split; [exact Hcached|].
  exact (proj1 (proj2 (cached_address_not_geocoded Sample.silent
                         Sample.jobs_twelve Sample.cache_one () _ Hcached))).
Defined.

Lemma cache_round_trip_witness :
  let C := [mk_entry Sample.split_address None None] in
  let final := (main Sample.macon_only (Some Sample.jobs_split) (Some C) ()).1 in
  queries (log final) = [] ∧ CACHE_FILE final = Some C.
Proof.
  intros C final.
  assert (∀ p, p ∈ unique_addresses_of (jobs_ga_of Sample.jobs_split) →
               p.1 ∈ map entry_full_address C) as Hall.
  { apply Forall_forall. vm_compute. repeat constructor. }
  destruct (cache_round_trip Sample.macon_only Sample.jobs_split C () Hall)
    as (_ & Hqueries & _ & Hfile & _).
  split; [exact Hqueries | exact Hfile].
Defined.

Lemma empty_run_fails_witness :
  filter_GA Sample.jobs_texas = [] ∧
  (main Sample.silent (Some Sample.jobs_texas) None ()).2
  = inl (KeyError "latitude").
Proof.
  split; [reflexivity|].
  by rewrite (empty_run_fails Sample.silent Sample.jobs_texas () eq_refl).
Defined.

(** C5 as worded does not hold, at two places.  A write after every tenth
    lookup of the loop: with one row loaded from the cache file and eleven
    rows to geocode, the loop writes the file after the ninth lookup, when
    the list has ten dictionaries, and the tenth lookup writes nothing.  At
    most nine lookups off the disk at any point: without a cache file,
    inside the tenth iteration, after the append and before the write, ten
    lookups are recorded and there is no file yet. *)
Lemma flush_every_tenth_lookup_fails :
  (length Sample.pending_twelve = 11 ∧
   length (geocoded_results (Sample.after 10)) = length Sample.cache_one + 10 ∧
   writes (log (Sample.after 10)) = writes (log (Sample.after 9)) ∧
   CACHE_FILE (Sample.after 10) = CACHE_FILE (Sample.after 9) ∧
   CACHE_FILE (Sample.after 10) ≠ Some (geocoded_results (Sample.after 10)) ∧
   writes (log (Sample.after 9)) = [geocoded_results (Sample.after 9)] ∧
   writes (log (Sample.after 8)) = []) ∧
  (Sample.pending_fresh !! 9 = Some Sample.tenth_row ∧
   length (geocoded_results Sample.inside_tenth) = 10 ∧
   CACHE_FILE Sample.inside_tenth = None ∧
   writes (log Sample.inside_tenth) = [] ∧
   ¬ ∃ unflushed,
       geocoded_results Sample.inside_tenth
       = persisted Sample.inside_tenth ++ unflushed ∧
       length unflushed ≤ 9).
Proof.
  split; [vm_compute; repeat split; discriminate|].
  split; [reflexivity|]. split; [reflexivity|]. split; [reflexivity|].
  split; [reflexivity|].
  intros (unflushed & Hres & Hlen).
  apply (f_equal length) in Hres. rewrite length_app in Hres.
  assert (length (geocoded_results Sample.inside_tenth) = 10) as H10 by reflexivity.
  assert (length (persisted Sample.inside_tenth) = 0) as H0 by reflexivity.
  lia.
Qed.

(** C1 on two employers whose full addresses coincide while their simple
    addresses differ: both pairs are unique addresses, both are geocoded,
    and the cache table gets two rows with the one key. *)
Theorem split_address_cached_twice :
  let final := (main Sample.macon_only (Some Sample.jobs_split) None ()).1 in
  unique_addresses_of (jobs_ga_of Sample.jobs_split)
  = [(Sample.split_address, "Macon, GA 31201");
     (Sample.split_address, "Unit 4, Macon, GA 31201")] ∧
  CACHE_FILE final
  = Some [mk_entry Sample.split_address (Some 32840000%Z) (Some (-83632000)%Z);
          mk_entry Sample.split_address None None] ∧
  ¬ NoDup (map entry_full_address (geocoded_results final)).
Proof.
  vm_compute. repeat split. intros Hnodup.
  apply NoDup_cons in Hnodup as [Hnotin _]. apply Hnotin. left.
Qed.

(** C3 on the same two employers: their full address has a row without
    coordinates in the cache table, and both of them are in the resolved
    set, joined with the other row of that key. *)
Theorem negative_address_resolved :
  let run := main Sample.macon_only (Some Sample.jobs_split) None () in
  mk_entry Sample.split_address None None ∈ geocoded_results run.1 ∧
  ∃ out, run.2 = inr out ∧
    ∀ r, r ∈ jobs_ga_of Sample.jobs_split →
      full_address r = Sample.split_address ∧
      ∃ m, m ∈ jobs_ga_geo out ∧ left_row m = r.
Proof.
  vm_compute. split; [right; left|].
  eexists. split; [reflexivity|].
  intros r Hr. apply list_elem_of_In in Hr. simpl in Hr.
  destruct Hr as [<-|[<-|[]]]; (split; [reflexivity|]); eexists.
  - split; [left|reflexivity].
  - split; [right; left|reflexivity].
Qed.

(** ** Standardized strings *)

Section Standardize.

Import PyStr.

Implicit Types (c : ascii) (s t : string) (b : bool).

Local Ltac by_cases c := destruct c as [[] [] [] [] [] [] [] []]; vm_compute; congruence.

Lemma isspace_upper c : isspace (upper c) = isspace c.
Proof. by_cases c. Qed.

Lemma isspace_lower c : isspace (lower c) = isspace c.
Proof. by_cases c. Qed.

Lemma iscased_upper c : iscased (upper c) = iscased c.
Proof. by_cases c. Qed.

Lemma iscased_lower c : iscased (lower c) = iscased c.
Proof. by_cases c. Qed.

Lemma upper_upper c : upper (upper c) = upper c.
Proof. by_cases c. Qed.

Lemma lower_lower c : lower (lower c) = lower c.
Proof. by_cases c. Qed.

Lemma upper_lower c : upper (lower c) = upper c.
Proof. by_cases c. Qed.

Lemma isspace_not_cased c : isspace c = true → iscased c = false.
Proof. by_cases c. Qed.

Lemma isspace_title_char b c :
  isspace (if b then lower c else upper c) = isspace c.
Proof. destruct b; [apply isspace_lower | apply isspace_upper]. Qed.

Lemma iscased_title_char b c :
  iscased (if b then lower c else upper c) = iscased c.
Proof. destruct b; [apply iscased_lower | apply iscased_upper]. Qed.

(** *** [strip] *)

Lemma lstrip_clean s c t : lstrip s = String c t → isspace c = false.
Proof.
  induction s as [|a s IH]; simpl; [done|].
  destruct (isspace a) eqn:E; [done|]. by intros [= <- _].
Qed.

Lemma lstrip_fixed s :
  (∀ c t, s = String c t → isspace c = false) → lstrip s = s.
Proof.
  destruct s as [|a s]; simpl; [done|]. intros H.
  by rewrite (H a s eq_refl).
Qed.

Lemma rstrip_head c s :
  rstrip (String c s) = "" ∨ ∃ t, rstrip (String c s) = String c t.
Proof. simpl. destruct (rstrip s); [destruct (isspace c)|]; eauto. Qed.

Lemma rstrip_cons c s :
  rstrip (String c s)
  = match rstrip s with
    | "" => if isspace c then "" else String c ""
    | r => String c r
    end.
Proof. done. Qed.

Lemma rstrip_rstrip s : rstrip (rstrip s) = rstrip s.
Proof.
  induction s as [|a s IH]; [done|].
  rewrite rstrip_cons. destruct (rstrip s) as [|d r] eqn:E.
  - destruct (isspace a) eqn:Ea; [done|]. by rewrite rstrip_cons, Ea.
  - by rewrite rstrip_cons, IH.
Qed.

Lemma rstrip_clean s t c :
  rstrip s = (t ++ String c "")%string → isspace c = false.
Proof.
  revert t. induction s as [|a s IH]; intros t; simpl.
  - by destruct t.
  - destruct (rstrip s) as [|d r] eqn:E.
    + destruct (isspace a) eqn:Ea; [by destruct t|].
      destruct t as [|a' t]; simpl; [by intros [= <-]|].
      intros [= _ H]. by destruct t.
    + destruct t as [|a' t]; simpl; [done|].
      intros [= _ H]. by apply (IH t).
Qed.

Lemma strip_strip s : strip (strip s) = strip s.
Proof.
  unfold strip.
  rewrite (lstrip_fixed (rstrip (lstrip s))); [apply rstrip_rstrip|].
  intros c t H. destruct (lstrip s) as [|a u] eqn:E; [done|].
  destruct (rstrip_head a u) as [H'|[t' H']]; rewrite H' in H; [done|].
  injection H as <- _. by apply (lstrip_clean s a u).
Qed.

(** *** [title] *)

Lemma title_from_nil b s : title_from b s = "" ↔ s = "".
Proof. by destruct s. Qed.

Lemma title_from_title_from b s : title_from b (title_from b s) = title_from b s.
Proof.
  revert b. induction s as [|a s IH]; intros b; simpl; [done|].
  rewrite iscased_title_char, IH. f_equal.
  destruct b; [apply lower_lower | apply upper_upper].
Qed.

Lemma lstrip_title s : lstrip (title s) = title (lstrip s).
Proof.
  unfold title. induction s as [|a s IH]; simpl; [done|].
  rewrite isspace_upper. destruct (isspace a) eqn:E; [|done].
  by rewrite (isspace_not_cased a E).
Qed.

Lemma rstrip_title_from b s : rstrip (title_from b s) = title_from b (rstrip s).
Proof.
  revert b. induction s as [|a s IH]; intros b; simpl; [done|].
  rewrite IH. destruct (rstrip s) as [|d r] eqn:E; simpl.
  - rewrite isspace_title_char. by destruct (isspace a).
  - done.
Qed.

Lemma strip_title s : strip (title s) = title (strip s).
Proof. unfold strip. rewrite lstrip_title. apply rstrip_title_from. Qed.

Lemma rstrip_cons_inv s c t : rstrip s = String c t → ∃ u, s = String c u.
Proof.
  destruct s as [|a u]; [done|].
  destruct (rstrip_head a u) as [->|[t' ->]]; [done|].
  intros [= -> _]. eauto.
Qed.

Lemma title_from_same_letters b s1 s2 :
  map lower (String.list_ascii_of_string s1)
    = map lower (String.list_ascii_of_string s2) →
  title_from b s1 = title_from b s2.
Proof.
  revert b s2. induction s1 as [|a1 s1 IH]; intros b [|a2 s2]; simpl; try done.
  intros [= Ha Hs].
  assert (upper a1 = upper a2) as Hup.
  { by rewrite <- (upper_lower a1), Ha, upper_lower. }
  assert (iscased a1 = iscased a2) as Hcased.
  { by rewrite <- (iscased_lower a1), Ha, iscased_lower. }
  rewrite Hcased, (IH _ _ Hs). by destruct b; rewrite ?Ha, ?Hup.
Qed.

(** *** ASCII text *)

Lemma isascii_title_char b c :
  isascii_char (if b then lower c else upper c) = isascii_char c.
Proof. destruct b; by_cases c. Qed.

Lemma isascii_lstrip s : isascii s = true → isascii (lstrip s) = true.
Proof.
  induction s as [|a s IH]; simpl; [done|].
  destruct (isspace a); [|done]. intros [_ H]%andb_prop. by apply IH.
Qed.

Lemma isascii_rstrip s : isascii s = true → isascii (rstrip s) = true.
Proof.
  induction s as [|a s IH]; [done|]. rewrite rstrip_cons.
  cbn [isascii]. intros [Ha Hs]%andb_prop. specialize (IH Hs).
  destruct (rstrip s) as [|d r].
  - destruct (isspace a); [done|]. simpl. by rewrite Ha.
  - cbn [isascii] in *. by rewrite Ha, IH.
Qed.

Lemma isascii_title_from b s : isascii s = true → isascii (title_from b s) = true.
Proof.
  revert b. induction s as [|a s IH]; intros b; simpl; [done|].
  intros [Ha Hs]%andb_prop. by rewrite isascii_title_char, Ha, IH.
Qed.

Lemma isascii_standardize (text : option string) :
  isascii (fillna text) = true → isascii (standardize text) = true.
Proof.
  intros H. unfold standardize, title, strip.
  by apply isascii_title_from, isascii_rstrip, isascii_lstrip.
Qed.

(** X1.  On ASCII text, standardizing a column twice gives what
    standardizing it once gives: the output of lines 20-21 is ASCII text
    again, and running the two lines on it changes nothing. *)
Theorem standardize_idempotent (text : option string) :
  isascii (fillna text) = true →
  isascii (standardize text) = true ∧
  standardize (Some (standardize text)) = standardize text.
Proof.
  intros Hascii. split; [by apply isascii_standardize|].
  unfold standardize.
  change (title (strip (title (strip (fillna text)))) = title (strip (fillna text))).
  rewrite strip_title, strip_strip. unfold title. apply title_from_title_from.
Qed.

Lemma standardize_idempotent_witness :
  standardize (Some (standardize (Some "  12 oAK st, uNIT 4b ")))
  = "12 Oak St, Unit 4B".
Proof.
  rewrite (proj2 (standardize_idempotent (Some "  12 oAK st, uNIT 4b ") eq_refl)).
  reflexivity.
Defined.

(** X2.  On ASCII text, the standardized string is ASCII text that neither
    starts nor ends with a white-space character. *)
Theorem standardize_no_outer_space (text : option string) :
  isascii (fillna text) = true →
  isascii (standardize text) = true ∧
  (∀ c t, standardize text = String c t → isspace c = false) ∧
  (∀ t c, standardize text = (t ++ String c "")%string → isspace c = false).
Proof.
  intros Hascii. split; [by apply isascii_standardize|].
  unfold standardize. rewrite <- strip_title. unfold strip. split.
  - intros c t [u Hu]%rstrip_cons_inv. by apply lstrip_clean in Hu.
  - intros t c. apply rstrip_clean.
Qed.

Lemma standardize_no_outer_space_witness :
  standardize (Some "  macon ") = "Macon" ∧
  ∀ c t, standardize (Some "  macon ") = String c t → isspace c = false.
Proof.
  split; [reflexivity|].
  exact (proj1 (proj2 (standardize_no_outer_space (Some "  macon ") eq_refl))).
Defined.

(** X3.  Two ASCII texts that differ in the case of their letters only are
    standardized to the same string. *)
Theorem standardize_ignores_case s1 s2 :
  isascii s1 = true →
  isascii s2 = true →
  map lower (String.list_ascii_of_string s1)
    = map lower (String.list_ascii_of_string s2) →
  standardize (Some s1) = standardize (Some s2).
Proof.
  intros _ _ H. unfold standardize.
  change (title (strip s1) = title (strip s2)).
  rewrite <- !strip_title. unfold title. by rewrite (title_from_same_letters _ _ _ H).
Qed.

Lemma standardize_ignores_case_witness :
  standardize (Some " 12 OAK st ") = standardize (Some " 12 oak ST ") ∧
  standardize (Some " 12 OAK st ") = "12 Oak St".
Proof.
  split; [|reflexivity].
  apply (standardize_ignores_case " 12 OAK st " " 12 oak ST "); reflexivity.
Defined.

End Standardize.

(** ** Rows of the filtered table *)

Lemma string_length_append (a b : string) :
  String.length (a ++ b)%string = String.length a + String.length b.
Proof. induction a as [|c a IH]; simpl; [done|]. by rewrite IH. Qed.

Lemma elem_of_jobs_ga (jobs : list record) (r : job_row) :
  r ∈ jobs_ga_of jobs ↔
  ∃ rec, rec ∈ jobs ∧ EMPLOYER_STATE rec = Some "GA" ∧ r = normalize rec.
Proof.
  unfold jobs_ga_of, filter_GA. rewrite list_elem_of_fmap. split.
  - intros (rec & -> & Hrec). exists rec.
    apply list_elem_of_In, filter_In in Hrec as [Hin Hga].
    apply list_elem_of_In in Hin. split; [done|]. split; [|done].
    unfold is_GA in Hga. destruct (EMPLOYER_STATE rec) as [st|]; [|done].
    by apply String.eqb_eq in Hga as ->.
  - intros (rec & Hin & Hga & ->). exists rec. split; [done|].
    apply list_elem_of_In, filter_In. split; [by apply list_elem_of_In|].
    unfold is_GA. by rewrite Hga.
Qed.

Lemma simple_address_shorter (rec : record) :
  simple_address (normalize rec) ≠ full_address (normalize rec).
Proof.
  simpl. intros H. apply (f_equal String.length) in H.
  rewrite !string_length_append in H. simpl in H. lia.
Qed.

(** X4.  In a filtered row the full address is the street, a comma and the
    simple address, and the simple address is the city followed by
    [", GA "] and the postal code; so the two addresses of a row are never
    the same string. *)
Theorem full_address_extends_simple_address (jobs : list record) (r : job_row) :
  r ∈ jobs_ga_of jobs →
  full_address r = (address_1 r ++ ", " ++ simple_address r)%string ∧
  simple_address r
  = (city r ++ ", GA " ++ fillna_astype_str (EMPLOYER_POSTAL_CODE (source r)))%string ∧
  simple_address r ≠ full_address r.
Proof.
  intros (rec & _ & Hga & ->)%elem_of_jobs_ga.
  split; [done|]. split; [|apply simple_address_shorter].
  simpl. by rewrite Hga.
Qed.

Lemma full_address_extends_simple_address_witness :
  ∃ r, r ∈ jobs_ga_of Sample.jobs_split ∧
    full_address r = "12 Oak St, Unit 4, Macon, GA 31201" ∧
    simple_address r ≠ full_address r.
Proof.
  exists (normalize (Sample.job "12 Oak St, Unit 4" "Macon" 31201)).
  assert (normalize (Sample.job "12 Oak St, Unit 4" "Macon" 31201)
            ∈ jobs_ga_of Sample.jobs_split) as Hr by (vm_compute; left).
  split; [exact Hr|]. split; [reflexivity|].
  exact (proj2 (proj2 (full_address_extends_simple_address
                         Sample.jobs_split _ Hr))).
Defined.

(** ** Unique addresses again *)

Section Drop_duplicates_again.

Context `{EqDecision A}.
Implicit Types (x : A) (l seen : list A).

Lemma drop_duplicates_from_NoDup seen l :
  NoDup l → (∀ x, x ∈ l → x ∉ seen) → drop_duplicates_from seen l = l.
Proof.
  intros Hnd. revert seen. induction Hnd as [|a l Hnotin Hnd IH]; intros seen Hdisj;
    simpl; [done|].
  destruct (decide (a ∈ seen)) as [Hin|_].
  - exfalso. apply (Hdisj a); [left|done].
  - f_equal. apply IH. intros x Hx [->|Hs]%elem_of_cons; [done|].
    apply (Hdisj x); [by right|done].
Qed.

(** X5.  A table without duplicate rows is left as it is, and dropping
    duplicates a second time changes nothing. *)
Theorem drop_duplicates_idempotent l :
  drop_duplicates (drop_duplicates l) = drop_duplicates l ∧
  (drop_duplicates l = l ↔ NoDup l).
Proof.
  assert (∀ k : list A, NoDup k → drop_duplicates k = k) as Hfix.
  { intros k Hk. apply drop_duplicates_from_NoDup; [done|].
    intros x _ Hx. inversion Hx. }
  split; [apply Hfix, NoDup_drop_duplicates|].
  split; [intros <-; apply NoDup_drop_duplicates | apply Hfix].
Qed.

End Drop_duplicates_again.

(** ** More on the run *)

Section Run.

Context {coord service : Type}.
Variable geocode : service → string → answer coord * service.
Implicit Types (st : state coord service) (row : address_pair) (s : service).
Implicit Types (cache : option (list (entry coord))) (jobs : list record).

(** The dictionaries of the loop: one per row, keyed by the full address of
    the row, with both coordinates or with none. *)
Lemma geocode_loop_new st l :
  ∃ new,
    geocoded_results (geocode_loop geocode st l) = geocoded_results st ++ new ∧
    map entry_full_address new = map fst l ∧
    Forall (λ e, latitude e = None ↔ longitude e = None) new.
Proof.
  revert st. induction l as [|row l IH]; intros st.
  - exists []. by rewrite geocode_loop_nil, app_nil_r.
  - rewrite geocode_loop_cons.
    destruct (IH (geocode_row geocode st row)) as (new & -> & Hkeys & Hboth).
    exists (new_entry_of geocode st row :: new).
    rewrite geocode_row_results, <- app_assoc. split; [done|]. split.
    + simpl. by rewrite new_entry_key, Hkeys.
    + constructor; [|done]. unfold new_entry_of, record_answer.
      by destruct ((lookup geocode (svc st) row.1 row.2).1.2).
Qed.

(** The rows of the loop are unique addresses, each at most once. *)
Lemma to_geocode_sublist cache (unique_addresses : list address_pair) :
  to_geocode_of cache unique_addresses `sublist_of` unique_addresses.
Proof. destruct cache; [apply sublist_filter|done]. Qed.

Lemma no_pending (C : list (entry coord)) (unique_addresses : list address_pair) :
  (∀ p, p ∈ unique_addresses → p.1 ∈ map entry_full_address C) →
  to_geocode_of (Some C) unique_addresses = [].
Proof.
  intros Hall. destruct (to_geocode_of _ _) as [|p l] eqn:E; [done|]. exfalso.
  assert (p ∈ to_geocode_of (Some C) unique_addresses)
    as [Hp Hnot]%elem_of_to_geocode by (rewrite E; left).
  by apply Hnot, Hall.
Qed.

(** After the run every unique address has its key in the table. *)
Lemma unique_addresses_cached jobs cache s p :
  p ∈ unique_addresses_of (jobs_ga_of jobs) →
  p.1 ∈ map entry_full_address
          (geocoded_results (main geocode (Some jobs) cache s).1).
Proof.
  intros Hp. rewrite final_keys, elem_of_app.
  destruct cache as [geocoded_df|]; simpl.
  - destruct (decide (p.1 ∈ map entry_full_address geocoded_df)) as [?|Hnot];
      [by left|right].
    apply (list_elem_of_fmap_2 fst), elem_of_to_geocode. done.
  - right. by apply (list_elem_of_fmap_2 fst).
Qed.

(** X6.  The final table is the loaded table, row for row, followed by one
    new row per geocoded address, in the order of the loop and keyed by the
    full address; a new row has both coordinates or none; the cache file
    ends with exactly this table. *)
Theorem final_table_extends_loaded jobs cache s :
  let to_geocode := to_geocode_of cache (unique_addresses_of (jobs_ga_of jobs)) in
  let final := (main geocode (Some jobs) cache s).1 in
  ∃ new,
    geocoded_results final = loaded_results cache ++ new ∧
    CACHE_FILE final = Some (loaded_results cache ++ new) ∧
    map entry_full_address new = map fst to_geocode ∧
    Forall (λ e, latitude e = None ↔ longitude e = None) new.
Proof.
  intros to_geocode final. unfold final, to_geocode. rewrite main_state.
  cbn [save_final geocoded_results CACHE_FILE].
  destruct (geocode_loop_new (start cache s)
              (to_geocode_of cache (unique_addresses_of (jobs_ga_of jobs))))
    as (new & Hres & ?).
  exists new. rewrite Hres. done.
Qed.

(** X7.  After the run the key of every filtered row is in the table, so
    the left join finds a cache row for every job: each joined row takes
    its coordinates from a cache row with its key. *)
Theorem every_job_finds_its_entry jobs cache s :
  let jobs_ga := jobs_ga_of jobs in
  let geocoded_df := geocoded_results (main geocode (Some jobs) cache s).1 in
  (∀ r, r ∈ jobs_ga → matches geocoded_df r ≠ []) ∧
  (∀ m, m ∈ merge_left jobs_ga geocoded_df →
     ∃ e, e ∈ geocoded_df ∧
       entry_full_address e = full_address (left_row m) ∧
       row_latitude m = latitude e ∧ row_longitude m = longitude e).
Proof.
  intros jobs_ga geocoded_df.
  assert (∀ r, r ∈ jobs_ga → matches geocoded_df r ≠ []) as Hfound.
  { intros r Hr Hnone.
    assert (pair_of r ∈ unique_addresses_of jobs_ga) as Hp.
    { apply elem_of_drop_duplicates, (list_elem_of_fmap_2 pair_of), Hr. }
    apply (unique_addresses_cached jobs cache s) in Hp.
    apply list_elem_of_fmap in Hp as (e & Hkey & He).
    assert (e ∈ matches geocoded_df r) as Hin by (by apply elem_of_matches).
    rewrite Hnone in Hin. inversion Hin. }
  split; [done|].
  intros m (Hr & [(Hnone & _)|(e & He & Hlat & Hlon)])%elem_of_merge_left.
  - by apply Hfound in Hr.
  - apply elem_of_matches in He as [Hkey He]. eauto.
Qed.

(** X8.  After a run that reached the merge, a second run on the cache
    file it left, with any geocoder, finds nothing to geocode, asks nothing
    and writes the file back as it was.  (A run that stopped at line 108
    leaves a file without columns, which is not a table to load.) *)
Theorem second_run_is_quiet jobs cache s out
    (geocode' : service → string → answer coord * service) s' :
  (main geocode (Some jobs) cache s).2 = inr out →
  let first := (main geocode (Some jobs) cache s).1 in
  let second := (main geocode' (Some jobs) (CACHE_FILE first) s').1 in
  to_geocode_of (CACHE_FILE first) (unique_addresses_of (jobs_ga_of jobs)) = [] ∧
  queries (log second) = [] ∧
  writes (log second) = [geocoded_results first] ∧
  CACHE_FILE second = CACHE_FILE first.
Proof.
  intros _ first second.
  assert (CACHE_FILE first = Some (geocoded_results first)) as Hfile.
  { unfold first. by rewrite main_state. }
  assert (to_geocode_of (CACHE_FILE first) (unique_addresses_of (jobs_ga_of jobs)) = [])
    as Hnone.
  { rewrite Hfile. apply no_pending. intros p. apply unique_addresses_cached. }
  split; [done|]. unfold second. rewrite main_state, Hnone, Hfile. done.
Qed.

(** *** Calls and pauses *)

Lemma lookup_events_queries_length st row :
  1 ≤ length (queries (lookup_events geocode st row)) ≤ 2.
Proof.
  rewrite lookup_events_queries.
  destruct ((geocode (svc st) row.1).1); simpl; try lia.
  destruct (decide (row.2 ≠ row.1)); simpl; lia.
Qed.

Lemma geocode_loop_queries_length st l :
  length (queries (log st)) + length l
    ≤ length (queries (log (geocode_loop geocode st l)))
    ≤ length (queries (log st)) + 2 * length l.
Proof.
  revert st. induction l as [|row l IH]; intros st.
  - rewrite geocode_loop_nil. simpl. lia.
  - rewrite geocode_loop_cons. specialize (IH (geocode_row geocode st row)).
    rewrite geocode_row_queries, length_app in IH.
    pose proof (lookup_events_queries_length st row). simpl. lia.
Qed.

Lemma geocode_loop_sleeps st l :
  ∃ pauses,
    sleeps (log (geocode_loop geocode st l)) = sleeps (log st) ++ pauses ∧
    Forall (λ n, n = 2) pauses ∧
    length pauses ≤ length l ∧
    ((∀ s q, (geocode s q).1 ≠ Raised) → pauses = []).
Proof.
  revert st. induction l as [|row l IH]; intros st.
  - exists []. rewrite geocode_loop_nil, app_nil_r. repeat split; auto.
  - rewrite geocode_loop_cons.
    destruct (IH (geocode_row geocode st row)) as (pauses & -> & Htwo & Hlen & Hnone).
    rewrite geocode_row_sleeps, lookup_events_sleeps, <- app_assoc.
    eexists. split; [reflexivity|].
    destruct ((lookup geocode (svc st) row.1 row.2).1.2) eqn:E; simpl;
      repeat split; auto; try lia.
    intros Hnever. exfalso. revert E. unfold lookup.
    destruct (geocode (svc st) row.1) as [a1 s1] eqn:E1.
    pose proof (Hnever (svc st) row.1) as H1. rewrite E1 in H1. simpl in H1.
    destruct a1; simpl; try done.
    destruct (decide (row.2 ≠ row.1)); simpl; [|done].
    destruct (geocode s1 row.2) as [a2 s2] eqn:E2.
    pose proof (Hnever s1 row.2) as H2. rewrite E2 in H2. simpl in H2.
    simpl. congruence.
Qed.

(** X9.  A run geocodes each address pair at most once and asks the
    geocoder at least once and at most twice per pair: the number of calls
    lies between the number of rows of the loop and twice that number, and
    the rows of the loop are not more than the filtered records. *)
Theorem number_of_geocoder_calls jobs cache s :
  let to_geocode := to_geocode_of cache (unique_addresses_of (jobs_ga_of jobs)) in
  let final := (main geocode (Some jobs) cache s).1 in
  NoDup to_geocode ∧
  length to_geocode ≤ length (jobs_ga_of jobs) ∧
  length to_geocode ≤ length (queries (log final)) ≤ 2 * length to_geocode.
Proof.
  intros to_geocode final.
  pose proof (to_geocode_sublist cache (unique_addresses_of (jobs_ga_of jobs)))
    as Hsub. fold to_geocode in Hsub.
  split; [|split].
  - eapply sublist_NoDup; [apply NoDup_drop_duplicates|exact Hsub].
  - apply sublist_length in Hsub. etrans; [exact Hsub|].
    unfold unique_addresses_of, drop_duplicates.
    etrans; [apply length_drop_duplicates_from|]. by rewrite length_map.
  - unfold final. rewrite main_state. cbn [save_final log].
    rewrite queries_app, app_nil_r.
    pose proof (geocode_loop_queries_length (start cache s) to_geocode) as H.
    simpl in H. unfold to_geocode in *. lia.
Qed.

(** X10.  Every extra pause of the script (line 96) lasts two seconds,
    there is at most one per row of the loop, and a run whose geocoder
    never raises takes none. *)
Theorem pauses_follow_exceptions jobs cache s :
  let to_geocode := to_geocode_of cache (unique_addresses_of (jobs_ga_of jobs)) in
  let final := (main geocode (Some jobs) cache s).1 in
  Forall (λ n, n = 2) (sleeps (log final)) ∧
  length (sleeps (log final)) ≤ length to_geocode ∧
  ((∀ s q, (geocode s q).1 ≠ Raised) → sleeps (log final) = []).
Proof.
  intros to_geocode final. unfold final. rewrite main_state.
  cbn [save_final log]. rewrite sleeps_app, app_nil_r.
  destruct (geocode_loop_sleeps (start cache s)
              (to_geocode_of cache (unique_addresses_of (jobs_ga_of jobs))))
    as (pauses & -> & Htwo & Hlen & Hnone).
  simpl. auto.
Qed.

(** *** When the run fails *)

Lemma to_geocode_of_empty_cache cache (unique_addresses : list address_pair) :
  loaded_results cache = [] → to_geocode_of cache unique_addresses = unique_addresses.
Proof.
  destruct cache as [geocoded_df|]; simpl; [|done]. intros ->.
  induction unique_addresses as [|p l IH]; [done|].
  rewrite filter_cons_True; [by rewrite IH|].
  unfold already_geocoded_of. simpl. set_solver.
Qed.

(** The errors of [main] on a present input file. *)
Lemma main_fails_iff jobs cache s e :
  (main geocode (Some jobs) cache s).2 = inl e ↔
  e = KeyError "latitude" ∧ loaded_results cache = [] ∧ filter_GA jobs = [].
Proof.
  destruct (geocode_loop_new (start cache s)
              (to_geocode_of cache (unique_addresses_of (jobs_ga_of jobs))))
    as (new & Hres & Hkeys & _).
  cbn [start geocoded_results] in Hres.
  unfold main. cbn [save_final geocoded_results]. rewrite Hres.
  split.
  - destruct (loaded_results cache ++ new) as [|e0 l] eqn:E; simpl; [|done].
    intros [= <-]. apply app_eq_nil in E as [Hloaded ->]. split; [done|].
    split; [done|].
    rewrite (to_geocode_of_empty_cache _ _ Hloaded) in Hkeys.
    destruct (filter_GA jobs) as [|rec recs] eqn:Hga; [done|]. exfalso.
    assert (pair_of (normalize rec) ∈ unique_addresses_of (jobs_ga_of jobs)) as Hp.
    { apply elem_of_drop_duplicates. unfold jobs_ga_of. rewrite Hga. left. }
    destruct (unique_addresses_of (jobs_ga_of jobs)); [inversion Hp|done].
  - intros (-> & Hloaded & Hga).
    assert (new = []) as ->.
    { apply (f_equal length) in Hkeys. rewrite !length_map in Hkeys.
      apply length_zero_iff_nil. rewrite Hkeys.
      unfold jobs_ga_of. rewrite Hga. by destruct cache. }
    by rewrite Hloaded.
Qed.

(** X11.  Take a [jobs.csv] with text in its street and city columns and no
    column named [latitude] or [longitude], and a cache file that is absent
    or holds at least one row.  The script then fails exactly when the
    cache file is absent and there is no Georgia record, with the
    [KeyError] of line 108; in every other case it reaches the merge. *)
Theorem run_fails_iff_nothing_to_show jobs cache s e :
  text_columns jobs = true →
  no_coordinate_columns jobs = true →
  cache ≠ Some [] →
  (main geocode (Some jobs) cache s).2 = inl e ↔
  e = KeyError "latitude" ∧ cache = None ∧ filter_GA jobs = [].
Proof.
  intros _ _ Hcache. rewrite main_fails_iff.
  destruct cache as [[|e0 rows]|]; simpl; try done; split;
    intros (? & ? & ?); done.
Qed.

(** *** Successive writes *)

Lemma writes_chain_snoc (ws : list (list (entry coord))) (r : list (entry coord)) :
  (∀ i j a b, i ≤ j → ws !! i = Some a → ws !! j = Some b → a `prefix_of` b) →
  (∀ w, w ∈ ws → w `prefix_of` r) →
  ∀ i j a b, i ≤ j → (ws ++ [r]) !! i = Some a → (ws ++ [r]) !! j = Some b →
    a `prefix_of` b.
Proof.
  intros Hchain Hall i j a b Hij.
  rewrite !lookup_snoc_Some.
  intros [[Hi Ha]|[-> <-]] [[Hj Hb]|[-> <-]].
  - by apply (Hchain i j).
  - by apply Hall, list_elem_of_lookup_2 with i.
  - lia.
  - done.
Qed.

Lemma geocode_loop_writes_chain st l :
  (∀ i j a b, i ≤ j → writes (log st) !! i = Some a →
     writes (log st) !! j = Some b → a `prefix_of` b) →
  (∀ w, w ∈ writes (log st) → w `prefix_of` geocoded_results st) →
  let st' := geocode_loop geocode st l in
  (∀ i j a b, i ≤ j → writes (log st') !! i = Some a →
     writes (log st') !! j = Some b → a `prefix_of` b) ∧
  (∀ w, w ∈ writes (log st') → w `prefix_of` geocoded_results st').
Proof.
  revert st. induction l as [|row l IH]; intros st Hchain Hall; [done|].
  simpl. rewrite geocode_loop_cons. apply IH.
  - rewrite geocode_row_writes. case_match; [|by rewrite app_nil_r].
    apply writes_chain_snoc; [done|].
    intros w Hw. rewrite geocode_row_results. by apply prefix_app_r, Hall.
  - intros w. rewrite geocode_row_writes, elem_of_app. intros [Hw|Hw].
    + rewrite geocode_row_results. by apply prefix_app_r, Hall.
    + destruct (_ =? _); [|by inversion Hw].
      by apply list_elem_of_singleton in Hw as ->.
Qed.

(** X12.  The tables written to the cache file during a run grow: each one
    starts with the loaded table, and a later write starts with all the
    rows of every earlier write, in the same order.  No write drops or
    changes a row that an earlier write had stored. *)
Theorem later_writes_extend_earlier_ones jobs cache s :
  let final := (main geocode (Some jobs) cache s).1 in
  (∀ w, w ∈ writes (log final) → loaded_results cache `prefix_of` w) ∧
  (∀ i j a b, i ≤ j → writes (log final) !! i = Some a →
     writes (log final) !! j = Some b → a `prefix_of` b).
Proof.
  intros final. unfold final. rewrite main_state.
  set (to_geocode := to_geocode_of _ _).
  destruct (geocode_loop_writes_chain (start cache s) to_geocode) as [Hchain Hall].
  { intros i j a b _ H. simpl in H. by destruct i. }
  { intros w Hw. inversion Hw. }
  cbn [save_final log]. rewrite writes_app. split.
  - intros w [Hw|Hw]%elem_of_app.
    + apply geocode_loop_writes in Hw as [Hw|[new ->]]; [by inversion Hw|].
      by apply prefix_app_r.
    + apply list_elem_of_singleton in Hw as ->.
      destruct (geocode_loop_prefix geocode (start cache s) to_geocode) as [new ->].
      by apply prefix_app_r.
  - by apply writes_chain_snoc.
Qed.

End Run.

Lemma second_run_is_quiet_witness :
  let first := (main Sample.macon_only (Some Sample.jobs_twelve) None ()).1 in
  let second := (main Sample.everywhere (Some Sample.jobs_twelve) (CACHE_FILE first) ()).1 in
  length (geocoded_results first) = 12 ∧
  queries (log second) = [] ∧ CACHE_FILE second = CACHE_FILE first.
Proof.
  intros first second. split; [vm_compute; reflexivity|].
  destruct (second_run_is_quiet Sample.macon_only Sample.jobs_twelve None ()
              _ Sample.everywhere () (eq_refl : _ = inr _))
    as (_ & Hqueries & _ & Hfile).
  split; [exact Hqueries | exact Hfile].
Defined.

Lemma run_fails_iff_nothing_to_show_witness :
  (main Sample.silent (Some Sample.jobs_texas) None ()).2
  = inl (KeyError "latitude").
Proof.
  apply (run_fails_iff_nothing_to_show Sample.silent Sample.jobs_texas None ());
    [reflexivity | reflexivity | discriminate | repeat split].
Defined.

(** ** More on the merge *)

Section Join.

Context {coord : Type}.
Implicit Types (r : job_row) (e : entry coord) (m : merged_row coord).
Implicit Types (jobs_ga : list job_row) (geocoded_df : list (entry coord)).

Lemma merge_left_cons r jobs_ga geocoded_df :
  merge_left (r :: jobs_ga) geocoded_df
  = match matches geocoded_df r with
    | [] => [mk_merged_row r None None]
    | ms => map (λ e, mk_merged_row r (latitude e) (longitude e)) ms
    end ++ merge_left jobs_ga geocoded_df.
Proof. done. Qed.

Lemma matches_at_most_one geocoded_df r :
  NoDup (map entry_full_address geocoded_df) →
  length (matches geocoded_df r) ≤ 1.
Proof.
  unfold matches. induction geocoded_df as [|e l IH]; simpl; [lia|].
  intros [Hnotin Hnd]%NoDup_cons. rewrite filter_cons.
  destruct (decide (entry_full_address e = full_address r)) as [Hkey|_];
    [|by apply IH].
  destruct (filter _ l) as [|e' l'] eqn:E; [simpl; lia|]. exfalso.
  assert (e' ∈ filter (λ e, entry_full_address e = full_address r) l)
    as [Hkey' He']%list_elem_of_filter by (rewrite E; left).
  apply Hnotin, list_elem_of_fmap. exists e'. split; [congruence|done].
Qed.

Lemma left_rows_of_filter (rows : list (merged_row coord)) :
  map left_row (List.filter has_coordinates rows) `sublist_of` map left_row rows.
Proof.
  induction rows as [|m rows IH]; simpl; [constructor|].
  destruct (has_coordinates m); simpl; by constructor.
Qed.

(** X13.  With one cache row per key the left join yields one row per job,
    in the order of the jobs; the resolved rows are then a selection of the
    jobs in their order, never more than the jobs. *)
Theorem one_row_per_job jobs_ga geocoded_df :
  NoDup (map entry_full_address geocoded_df) →
  map left_row (merge_left jobs_ga geocoded_df) = jobs_ga ∧
  map left_row (dropna (merge_left jobs_ga geocoded_df)) `sublist_of` jobs_ga ∧
  length (dropna (merge_left jobs_ga geocoded_df)) ≤ length jobs_ga.
Proof.
  intros Hnd.
  assert (map left_row (merge_left jobs_ga geocoded_df) = jobs_ga) as Hrows.
  { induction jobs_ga as [|r l IH]; [done|].
    rewrite merge_left_cons, map_app, IH.
    pose proof (matches_at_most_one geocoded_df r Hnd) as Hone.
    destruct (matches geocoded_df r) as [|e [|e' ms]]; simpl in *; [done|done|lia]. }
  assert (map left_row (dropna (merge_left jobs_ga geocoded_df)) `sublist_of` jobs_ga)
    as Hsub.
  { rewrite <- Hrows at 2. apply left_rows_of_filter. }
  split; [done|]. split; [done|].
  apply sublist_length in Hsub. by rewrite length_map in Hsub.
Qed.

(** X14.  A job whose full address has a cache row with both coordinates is
    in the resolved set with these coordinates, and its point, longitude
    first, is among the points. *)
Theorem geocoded_job_is_resolved jobs_ga geocoded_df r e lat lon :
  r ∈ jobs_ga →
  e ∈ geocoded_df →
  entry_full_address e = full_address r →
  latitude e = Some lat →
  longitude e = Some lon →
  mk_merged_row r (Some lat) (Some lon) ∈ dropna (merge_left jobs_ga geocoded_df) ∧
  {| x := lon; y := lat |} ∈ geometry_of (dropna (merge_left jobs_ga geocoded_df)).
Proof.
  intros Hr He Hkey Hlat Hlon.
  assert (mk_merged_row r (Some lat) (Some lon)
            ∈ dropna (merge_left jobs_ga geocoded_df)) as Hm.
  { apply elem_of_dropna. split; [|by split; eexists].
    apply elem_of_merge_left. split; [done|]. right.
    exists e. split; [by apply elem_of_matches|]. by split. }
  split; [done|]. unfold geometry_of. apply list_elem_of_omap.
  by exists (mk_merged_row r (Some lat) (Some lon)).
Qed.

Lemma length_geometry_of_dropna (rows : list (merged_row coord)) :
  length (geometry_of (dropna rows)) = length (dropna rows).
Proof.
  unfold geometry_of, dropna. induction rows as [|m rows IH]; [done|].
  cbn [List.filter]. destruct (has_coordinates m) eqn:E; [|done].
  unfold has_coordinates in E.
  destruct (row_latitude m) as [lat|] eqn:Elat; [|done].
  destruct (row_longitude m) as [lon|] eqn:Elon; [|done].
  assert (point_of m = Some {| x := lon; y := lat |}) as Hp.
  { unfold point_of. by rewrite Elat, Elon. }
  csimpl. rewrite Hp. simpl. by rewrite IH.
Qed.

End Join.

Lemma one_row_per_job_witness :
  let jobs_ga := jobs_ga_of Sample.jobs_twelve in
  length (dropna (merge_left jobs_ga Sample.cache_one)) ≤ 12.
Proof.
  intros jobs_ga.
  assert (NoDup (map entry_full_address Sample.cache_one)) as Hnd.
  { vm_compute. repeat constructor. intros H. inversion H. }
  exact (proj2 (proj2 (one_row_per_job jobs_ga Sample.cache_one Hnd))).
Defined.

Lemma geocoded_job_is_resolved_witness :
  let r := normalize (Sample.job "1 Main St" "Macon" 31201) in
  mk_merged_row r (Some 32840000%Z) (Some (-83632000)%Z)
    ∈ dropna (merge_left (jobs_ga_of Sample.jobs_twelve) Sample.cache_one).
Proof.
  intros r.
  refine (proj1 (geocoded_job_is_resolved (jobs_ga_of Sample.jobs_twelve)
                   Sample.cache_one r
                   (mk_entry "1 Main St, Macon, GA 31201"
                      (Some 32840000%Z) (Some (-83632000)%Z))
                   32840000%Z (-83632000)%Z _ _ eq_refl eq_refl eq_refl)).
  - vm_compute. left.
  - vm_compute. left.
Defined.

(** X15.  When the script reaches the merge, there is one point per
    resolved row, every resolved row belongs to a filtered record and has
    both coordinates, and these are the coordinates of a row of the final
    cache table with the key of the record. *)
Theorem one_point_per_resolved_row {coord service : Type}
    (geocode : service → string → answer coord * service)
    (jobs : list record) (cache : option (list (entry coord))) (s : service)
    (out : output coord) :
  (main geocode (Some jobs) cache s).2 = inr out →
  let geocoded_df := geocoded_results (main geocode (Some jobs) cache s).1 in
  length (geometry out) = length (jobs_ga_geo out) ∧
  ∀ m, m ∈ jobs_ga_geo out →
    left_row m ∈ jobs_ga_of jobs ∧
    ∃ e lat lon, e ∈ geocoded_df ∧
      entry_full_address e = full_address (left_row m) ∧
      latitude e = Some lat ∧ longitude e = Some lon ∧
      row_latitude m = Some lat ∧ row_longitude m = Some lon.
Proof.
  rewrite main_state. unfold main.
  destruct (success_count _) as [err|n]; [done|].
  cbn [snd]. intros [= <-]. cbn [geometry jobs_ga_geo]. split.
  - apply length_geometry_of_dropna.
  - intros m. apply resolved_from_cache.
Qed.

Lemma one_point_per_resolved_row_witness :
  ∃ out,
    (main Sample.macon_only (Some Sample.jobs_twelve) (Some Sample.cache_one) ()).2
    = inr out ∧
    length (geometry out) = length (jobs_ga_geo out) ∧
    length (jobs_ga_geo out) = 12.
Proof.
  eexists. split; [vm_compute; reflexivity|].
  split; [|vm_compute; reflexivity].
  refine (proj1 (one_point_per_resolved_row Sample.macon_only Sample.jobs_twelve
                   (Some Sample.cache_one) () _ _)).
  vm_compute. reflexivity.
Defined.

(** ** What the answers of the geocoder lead to *)

Section Answers.

Context {coord service : Type}.
Variable geocode : service → string → answer coord * service.
Implicit Types (st : state coord service) (row : address_pair) (s : service).
Implicit Types (cache : option (list (entry coord))) (jobs : list record).

Lemma main_output jobs cache s out :
  (main geocode (Some jobs) cache s).2 = inr out →
  jobs_ga_geo out
  = dropna (merge_left (jobs_ga_of jobs)
              (geocoded_results (main geocode (Some jobs) cache s).1)) ∧
  geometry out = geometry_of (jobs_ga_geo out).
Proof.
  rewrite main_state. unfold main.
  destruct (success_count _); [done|]. cbn [snd]. by intros [= <-].
Qed.

(** The answer a lookup ends with is the answer of one of its calls. *)
Lemma lookup_answer s address simple_addr :
  ∃ s' q, (lookup geocode s address simple_addr).1.2 = (geocode s' q).1.
Proof.
  unfold lookup. destruct (geocode s address) as [a1 s1] eqn:E1.
  destruct a1; simpl.
  - exists s, address. by rewrite E1.
  - destruct (decide (simple_addr ≠ address)).
    + destruct (geocode s1 simple_addr) as [a2 s2] eqn:E2. simpl.
      exists s1, simple_addr. by rewrite E2.
    + exists s, address. by rewrite E1.
  - exists s, address. by rewrite E1.
Qed.

Lemma geocode_loop_new_Forall (P : entry coord → Prop) st l :
  (∀ st row, P (new_entry_of geocode st row)) →
  ∃ new,
    geocoded_results (geocode_loop geocode st l) = geocoded_results st ++ new ∧
    map entry_full_address new = map fst l ∧
    Forall P new.
Proof.
  intros HP. revert st. induction l as [|row l IH]; intros st.
  - exists []. by rewrite geocode_loop_nil, app_nil_r.
  - rewrite geocode_loop_cons.
    destruct (IH (geocode_row geocode st row)) as (new & -> & Hkeys & Hall).
    exists (new_entry_of geocode st row :: new).
    rewrite geocode_row_results, <- app_assoc. split; [done|]. split.
    + simpl. by rewrite new_entry_key, Hkeys.
    + by constructor.
Qed.

(** X16.  For an address pair built by the script the two strings differ,
    so the comparison of line 72 never holds the fallback back: the simple
    address is asked whenever the full address gets no result. *)
Theorem fallback_always_tried jobs st row :
  row ∈ unique_addresses_of (jobs_ga_of jobs) →
  row.2 ≠ row.1 ∧
  queries (log (geocode_row geocode st row))
  = queries (log st) ++ row.1 ::
      match (geocode (svc st) row.1).1 with
      | NoLocation => [row.2]
      | _ => []
      end.
Proof.
  intros Hrow. apply elem_of_drop_duplicates, list_elem_of_fmap in Hrow.
  destruct Hrow as (r & -> & (rec & _ & _ & ->)%elem_of_jobs_ga).
  pose proof (simple_address_shorter rec) as Hne.
  split; [done|].
  rewrite geocode_row_queries, lookup_events_queries. cbn [pair_of fst snd].
  destruct ((geocode (svc st) (full_address (normalize rec))).1); try done.
  by destruct (decide _).
Qed.

(** X17.  When the geocoder finds no location at all and the loaded table
    has no row with both coordinates, no record is resolved and no point is
    built. *)
Theorem nothing_found_nothing_resolved jobs cache s out :
  (∀ s q lat lon, (geocode s q).1 ≠ Location lat lon) →
  Forall (λ e, latitude e = None ∨ longitude e = None) (loaded_results cache) →
  (main geocode (Some jobs) cache s).2 = inr out →
  jobs_ga_geo out = [] ∧ geometry out = [].
Proof.
  intros Hnever Hloaded Hout.
  destruct (main_output jobs cache s out Hout) as [Hrows Hpoints].
  assert (jobs_ga_geo out = []) as Hnone.
  { destruct (jobs_ga_geo out) as [|m ms] eqn:E; [done|]. exfalso.
    assert (m ∈ dropna (merge_left (jobs_ga_of jobs)
                  (geocoded_results (main geocode (Some jobs) cache s).1))) as Hm.
    { rewrite <- Hrows. left. }
    apply resolved_from_cache in Hm
      as (_ & e & lat & lon & He & _ & Hlat & Hlon & _).
    rewrite main_state in He. cbn [save_final geocoded_results] in He.
    destruct (geocode_loop_new_Forall (λ e, latitude e = None) (start cache s)
                (to_geocode_of cache (unique_addresses_of (jobs_ga_of jobs))))
      as (new & Hres & _ & Hnew).
    { intros st row. unfold new_entry_of.
      destruct (lookup_answer (svc st) row.1 row.2) as (s' & q & ->).
      destruct ((geocode s' q).1) as [lat' lon'| |] eqn:Ea; try done.
      by destruct (Hnever s' q lat' lon'). }
    rewrite Hres in He. apply elem_of_app in He as [He|He].
    - rewrite Forall_forall in Hloaded. destruct (Hloaded e He); congruence.
    - rewrite Forall_forall in Hnew. specialize (Hnew e He). congruence. }
  split; [done|]. by rewrite Hpoints, Hnone.
Qed.

(** X18.  Take a [jobs.csv] without a column named [latitude] or
    [longitude] and with at least one Georgia record, and no cache file.
    When the geocoder finds a location for every string, the script
    reaches the merge and every filtered record is resolved. *)
Theorem all_found_all_resolved jobs s :
  no_coordinate_columns jobs = true →
  (∀ s q, ∃ lat lon, (geocode s q).1 = Location lat lon) →
  filter_GA jobs ≠ [] →
  ∃ out, (main geocode (Some jobs) None s).2 = inr out ∧
    ∀ r, r ∈ jobs_ga_of jobs → ∃ m, m ∈ jobs_ga_geo out ∧ left_row m = r.
Proof.
  intros _ Halways Hga.
  destruct (geocode_loop_new_Forall
              (λ e, is_Some (latitude e) ∧ is_Some (longitude e))
              (start None s) (unique_addresses_of (jobs_ga_of jobs)))
    as (new & Hres & Hkeys & Hnew).
  { intros st row. unfold new_entry_of.
    destruct (lookup_answer (svc st) row.1 row.2) as (s' & q & ->).
    destruct (Halways s' q) as (lat & lon & ->). simpl. split; eauto. }
  simpl in Hres.
  unfold main. cbn [to_geocode_of save_final geocoded_results]. rewrite Hres.
  destruct new as [|e0 new'] eqn:Enew.
  { exfalso. destruct (filter_GA jobs) as [|rec recs] eqn:E; [done|].
    assert (pair_of (normalize rec) ∈ unique_addresses_of (jobs_ga_of jobs)) as Hp.
    { apply elem_of_drop_duplicates. unfold jobs_ga_of. rewrite E. left. }
    destruct (unique_addresses_of (jobs_ga_of jobs)); [inversion Hp|done]. }
  rewrite <- Enew in *. assert (success_count new = inr
    (length (filter (λ e, is_Some (latitude e)) new))) as -> by by rewrite Enew.
  eexists. split; [reflexivity|]. cbn [jobs_ga_geo].
  intros r Hr.
  assert (full_address r ∈ map entry_full_address new) as Hkey.
  { rewrite Hkeys. apply (list_elem_of_fmap_2' fst _ (pair_of r)); [|done].
    apply elem_of_drop_duplicates, (list_elem_of_fmap_2 pair_of), Hr. }
  apply list_elem_of_fmap in Hkey as (e & Hkey & He).
  rewrite Forall_forall in Hnew. destruct (Hnew e He) as [[lat Hlat] [lon Hlon]].
  exists (mk_merged_row r (Some lat) (Some lon)). split; [|done].
  apply elem_of_dropna. split; [|by split; eexists].
  apply elem_of_merge_left. split; [done|]. right.
  exists e. split; [by apply elem_of_matches|]. by split.
Qed.

(** X19.  A cached row without coordinates is final.  When the loaded keys
    differ from one another and no two unique addresses share their full
    address, a record whose full address is cached without coordinates is
    not resolved by a later run, whatever the geocoder would answer. *)
Theorem cached_negative_stays_unresolved jobs (geocoded_df : list (entry coord)) s e out :
  NoDup (map entry_full_address geocoded_df) →
  NoDup (map fst (unique_addresses_of (jobs_ga_of jobs))) →
  e ∈ geocoded_df →
  latitude e = None ∨ longitude e = None →
  (main geocode (Some jobs) (Some geocoded_df) s).2 = inr out →
  ∀ m, m ∈ jobs_ga_geo out → full_address (left_row m) ≠ entry_full_address e.
Proof.
  intros Hloaded Hunique He Hneg Hout m Hm.
  pose proof (final_keys_NoDup geocode jobs (Some geocoded_df) s Hloaded Hunique)
    as Hnd.
  destruct (main_output jobs (Some geocoded_df) s out Hout) as [Hrows _].
  rewrite Hrows in Hm. revert Hm.
  apply negative_not_resolved; [done| |done].
  rewrite main_state. cbn [save_final geocoded_results].
  destruct (geocode_loop_prefix geocode (start (Some geocoded_df) s)
              (to_geocode_of (Some geocoded_df) (unique_addresses_of (jobs_ga_of jobs))))
    as [new ->].
  apply elem_of_app. by left.
Qed.

End Answers.

Lemma fallback_always_tried_witness :
  let row := (Sample.split_address, "Macon, GA 31201") in
  queries (log (geocode_row Sample.silent (start None ()) row))
  = [Sample.split_address; "Macon, GA 31201"].
Proof.
  intros row.
  refine (proj2 (fallback_always_tried Sample.silent Sample.jobs_split
                   (start None ()) row _)).
  vm_compute. left.
Defined.

Lemma nothing_found_nothing_resolved_witness :
  ∃ out,
    (main Sample.silent (Some Sample.jobs_split) None ()).2 = inr out ∧
    jobs_ga_geo out = [].
Proof.
  eexists. split; [vm_compute; reflexivity|].
  refine (proj1 (nothing_found_nothing_resolved Sample.silent Sample.jobs_split
                   None () _ _ _ _)).
  - intros s q lat lon. done.
  - constructor.
  - vm_compute. reflexivity.
Defined.

Lemma all_found_all_resolved_witness :
  ∃ out,
    (main Sample.everywhere (Some Sample.jobs_split) None ()).2 = inr out ∧
    ∀ r, r ∈ jobs_ga_of Sample.jobs_split → ∃ m, m ∈ jobs_ga_geo out ∧ left_row m = r.
Proof.
  apply (all_found_all_resolved Sample.everywhere Sample.jobs_split ()).
  - reflexivity.
  - intros s q. by exists 32840000%Z, (-83632000)%Z.
  - vm_compute. discriminate.
Defined.

Lemma cached_negative_stays_unresolved_witness :
  ∃ out,
    (main Sample.everywhere (Some Sample.jobs_twelve) (Some Sample.cache_negative) ()).2
    = inr out ∧
    length (jobs_ga_geo out) = 11 ∧
    ∀ m, m ∈ jobs_ga_geo out →
      full_address (left_row m) ≠ "1 Main St, Macon, GA 31201".
Proof.
  eexists. split; [vm_compute; reflexivity|]. split; [vm_compute; reflexivity|].
  refine (cached_negative_stays_unresolved Sample.everywhere Sample.jobs_twelve
            Sample.cache_negative ()
            (mk_entry "1 Main St, Macon, GA 31201" None None) _ _ _ _ _ _).
  - apply (bool_decide_unpack _). vm_compute. exact I.
  - apply (bool_decide_unpack _). vm_compute. exact I.
  - left.
  - by left.
  - vm_compute. reflexivity.
Defined.
